(** * mht_unpack: repacking an MHTML message into one HTML document

    A shallow embedding of [mht_unpack.py] and the properties of its
    resolution-and-rendering engine.

    Python values are embedded as follows.
    - [str] is [string]; [bytes] is [list byte].
    - a [dict] with string keys is a [gmap string _]; the [frozenset] of
      digests that guards against cycles is a [gset string].
    - Code that prints, touches the extension cache [common_types], reads or
      writes files, or raises, lives in the monad [M]: a state monad over
      [world] whose result is a value, a raised exception, or exhaustion of the
      recursion fuel.  The state survives an exception, as in Python.
    - The libraries the script imports ([hashlib], [magic], [mimetypes],
      [urllib.parse], [bs4], the codec of [str.encode]) are the fields of
      [Externals]; every definition is parametric in them.  They are taken to
      answer: a URL that [urllib] refuses or markup that [bs4] cannot read is
      outside the model, as is a failing [open]. *)

From Stdlib.Strings Require Import Byte Ascii String.
From stdpp Require Import base option list strings gmap sets.

(** ** Exceptions, results, the world *)

Inductive exn : Type :=
| NameError (name : string)
| TypeError (msg : string)
| IndexError.

Inductive result (A : Type) : Type :=
| Ok (a : A)
| Raise (e : exn)
| OutOfFuel.
Arguments Ok {A} a.
Arguments Raise {A} e.
Arguments OutOfFuel {A}.

Abbreviation bytes := (list byte).

(** [common_types] is the module-level dictionary; [files] is the directory the
    script runs in, [writes] the trace of [open(path, "wb")] followed by
    [write], oldest first; [stdout] the printed lines, oldest first. *)
Record world : Type := World {
  common_types : gmap string string;
  files : gmap string bytes;
  writes : list (string * bytes);
  stdout : list string
}.

Definition M (A : Type) : Type := world → result A * world.

Definition ret {A} (a : A) : M A := fun w => (Ok a, w).

Definition bind {A B} (m : M A) (k : A → M B) : M B :=
  fun w =>
    match m w with
    | (Ok a, w') => k a w'
    | (Raise e, w') => (Raise e, w')
    | (OutOfFuel, w') => (OutOfFuel, w')
    end.

Definition raise {A} (e : exn) : M A := fun w => (Raise e, w).

Definition diverge {A} : M A := fun w => (OutOfFuel, w).

Notation "x <- m ;; k" := (bind m (fun x => k))
  (at level 100, m at next level, right associativity, only parsing).
Notation "m ;; k" := (bind m (fun _ => k))
  (at level 100, right associativity, only parsing).

Definition print (line : string) : M unit :=
  fun w => (Ok tt, World (common_types w) (files w) (writes w) (stdout w ++ [line])).

Definition exists_path (path : string) : M bool :=
  fun w => (Ok (bool_decide (is_Some (files w !! path))), w).

Definition write_file (path : string) (data : bytes) : M unit :=
  fun w => (Ok tt, World (common_types w) (<[path := data]> (files w))
                         (writes w ++ [(path, data)]) (stdout w)).

(** ** Strings *)

Definition is_upper (c : ascii) : bool :=
  let n := nat_of_ascii c in (65 <=? n) && (n <=? 90).

Definition lower_ascii (c : ascii) : ascii :=
  if is_upper c then ascii_of_nat (nat_of_ascii c + 32) else c.

(** [str.lower] on the ASCII range, which is where mime types live. *)
Fixpoint lower (s : string) : string :=
  match s with
  | EmptyString => EmptyString
  | String c s' => String (lower_ascii c) (lower s')
  end.

(** [sub in s] *)
Definition contains (sub s : string) : bool :=
  match String.index 0 sub s with Some _ => true | None => false end.

Definition is_space (c : ascii) : bool :=
  let n := nat_of_ascii c in ((9 <=? n) && (n <=? 13)) || (n =? 32) || ((28 <=? n) && (n <=? 31)).

Fixpoint lstrip (p : ascii → bool) (s : string) : string :=
  match s with
  | EmptyString => EmptyString
  | String c s' => if p c then lstrip p s' else s
  end.

Fixpoint rstrip (p : ascii → bool) (s : string) : string :=
  match s with
  | EmptyString => EmptyString
  | String c s' =>
      match rstrip p s' with
      | EmptyString => if p c then EmptyString else String c EmptyString
      | r => String c r
      end
  end.

(** [s.strip()] and [s.strip(chars)] *)
Definition strip_with (p : ascii → bool) (s : string) : string := rstrip p (lstrip p s).
Definition strip (s : string) : string := strip_with is_space s.
Definition strip_chars (chars : string) (s : string) : string :=
  strip_with (fun c => bool_decide (c ∈ list_ascii_of_string chars)) s.

(** [sorted] on a list of [str]: insertion by code point order. *)
Fixpoint insert_sorted (x : string) (l : list string) : list string :=
  match l with
  | [] => [x]
  | y :: l' => if String.leb x y then x :: l else y :: insert_sorted x l'
  end.

Fixpoint sorted (l : list string) : list string :=
  match l with
  | [] => []
  | x :: l' => insert_sorted x (sorted l')
  end.

(** [s.replace(c, "")] for a one-character [c] *)
Fixpoint remove_char (c : ascii) (s : string) : string :=
  match s with
  | EmptyString => EmptyString
  | String d s' => if bool_decide (d = c) then remove_char c s' else String d (remove_char c s')
  end.

Definition newline : ascii := ascii_of_nat 10.

(** ** Base64 ([base64.urlsafe_b64encode], [base64.encodebytes]) *)

Definition std_alphabet : string :=
  "ABCDEFGHIJKLMNOPQRSTUVWXYZabcdefghijklmnopqrstuvwxyz0123456789+/".
Definition urlsafe_alphabet : string :=
  "ABCDEFGHIJKLMNOPQRSTUVWXYZabcdefghijklmnopqrstuvwxyz0123456789-_".

Definition pad : ascii := "="%char.

(** The [i]-th 6-bit group, counted from the least significant, of a 24-bit
    group [n], as a character of the alphabet. *)
Definition sextet (alphabet : string) (n : N) (i : N) : ascii :=
  default pad (String.get (N.to_nat (N.land (N.shiftr n (6 * i)) 63)) alphabet).

Definition group24 (x y z : byte) : N :=
  (Byte.to_N x * 65536 + Byte.to_N y * 256 + Byte.to_N z)%N.

Fixpoint b64encode_with (alphabet : string) (s : bytes) : string :=
  match s with
  | [] => EmptyString
  | [x] =>
      let n := group24 x x00 x00 in
      String (sextet alphabet n 3) (String (sextet alphabet n 2) (String pad (String pad EmptyString)))
  | [x; y] =>
      let n := group24 x y x00 in
      String (sextet alphabet n 3) (String (sextet alphabet n 2)
        (String (sextet alphabet n 1) (String pad EmptyString)))
  | x :: y :: z :: rest =>
      let n := group24 x y z in
      String (sextet alphabet n 3) (String (sextet alphabet n 2)
        (String (sextet alphabet n 1) (String (sextet alphabet n 0)
          (b64encode_with alphabet rest))))
  end.

Definition urlsafe_b64encode (s : bytes) : string := b64encode_with urlsafe_alphabet s.

(** [binascii.b2a_base64]: one line of base64, newline-terminated *)
Definition b2a_base64 (s : bytes) : string :=
  b64encode_with std_alphabet s +:+ String newline EmptyString.

Definition MAXBINSIZE : nat := 57.

Fixpoint encodebytes_from (n : nat) (s : bytes) : string :=
  match n, s with
  | _, [] => EmptyString
  | O, _ => EmptyString
  | S n', _ => b2a_base64 (take MAXBINSIZE s) +:+ encodebytes_from n' (drop MAXBINSIZE s)
  end.

(** [base64.encodebytes]: a line for every 57 bytes of input *)
Definition encodebytes (s : bytes) : string := encodebytes_from (length s) s.

(** ** Message parts, markup trees, the imported libraries *)

(** What [part.get_payload(decode=True)] may be. *)
Inductive payload_value : Type :=
| Bytes (b : bytes)
| Str (s : string)
| NoPayload.

(** A part of the message, as the accessors used by the script see it. *)
Record Part : Type := {
  get_content_type : option string;
  get_payload : payload_value;
  get_param_start : option string;
  Content_Base : option string;
  Content_Location : option string;
  Content_ID : option string;
  is_multipart : bool
}.

(** A node of the tree [bs4] parses: a string or a tag with its name, its
    attributes in order, and its contents. *)
#[local] Unset Elimination Schemes.
Inductive node : Type :=
| NavigableString (s : string)
| Tag (name : string) (attrs : list (string * string)) (contents : list node).
#[local] Set Elimination Schemes.

(** The two fields of [urlsplit]'s result the script reads. *)
Record SplitResult : Type := { scheme : string; path : string }.

Record Externals : Type := {
  (** [hashlib.sha256(b).digest()] *)
  sha256 : bytes → bytes;
  (** [magic_obj]: [None] when [filemagic] is not installed; otherwise
      [id_buffer], which answers [None] when it raises *)
  magic_obj : option (payload_value → option string);
  (** [mimetypes.guess_all_extensions] *)
  guess_all_extensions : string → list string;
  (** [urllib.parse.urlsplit], on the URLs it splits; the [ValueError] it has
      for a URL it refuses, such as one with an unmatched bracket in the host,
      is not modelled *)
  urlsplit : string → SplitResult;
  (** [urllib.parse.urljoin] on two non-empty [str], with the same proviso *)
  urljoin_str : string → string → string;
  (** [bs4.BeautifulSoup(data)] on markup given as [bytes] or [str]: the
      contents of the parsed document *)
  BeautifulSoup : payload_value → list node;
  (** [doc.encode()] *)
  doc_encode : list node → bytes;
  (** [s.encode('utf-8')] *)
  utf8_encode : string → bytes
}.

(** Python truth of a [str] or [None]. *)
Definition truthy (o : option string) : bool :=
  match o with
  | Some s => negb (bool_decide (s = EmptyString))
  | None => false
  end.

(** The literal [common_types] the module starts with. *)
Definition initial_common_types : gmap string string :=
  <["image/jpeg" := ".jpg"]> (<["application/octet-stream" := ".data"]>
    (<["text/plain" := ".txt"]> (<["text/html" := ".html"]> ∅))).

Definition initial_world : world := World initial_common_types ∅ [] [].

Definition lookup_common_type (mime_type : string) : M (option string) :=
  fun w => (Ok (common_types w !! mime_type), w).

Definition store_common_type (mime_type ext : string) : M unit :=
  fun w => (Ok tt, World (<[mime_type := ext]> (common_types w)) (files w) (writes w) (stdout w)).

Section find_extension.
Context (E : Externals).

(** Determine an extension for a given mime type. *)
Definition find_extension (mime_type : string) : M string :=
  let mime_type := lower mime_type in
  cached <- lookup_common_type mime_type ;;
  match cached with
  | Some ext => ret ext
  | None =>
      let exts := sorted (guess_all_extensions E mime_type) ++ [EmptyString] in
      let ext := default EmptyString (head exts) in
      store_common_type mime_type ext ;;
      print ("  " +:+ mime_type +:+ " -> '" +:+ ext +:+ "'") ;;
      ret ext
  end.
End find_extension.

(** ** class PartHelper *)

Module PartHelper.
Record t : Type := Build {
  part : Part;
  content_type : string;
  payload : payload_value;
  extension : string;
  digest : string
}.

Section init.
Context (E : Externals).

(** [magic_obj.id_buffer(payload)] under [try ... except: pass], when
    [magic_obj] is there. *)
Definition sniff (payload : payload_value) : option string :=
  match magic_obj E with
  | Some id_buffer => id_buffer payload
  | None => None
  end.

(** The content type [__init__] settles on. *)
Definition effective_content_type (part : Part) : string :=
  let mime := get_content_type part in
  let payload := get_payload part in
  let mime :=
    if negb (truthy mime) || contains "octet-stream" (default EmptyString mime)
    then
      let _mime := sniff payload in
      if truthy _mime then _mime else mime
    else mime in
  if negb (truthy mime) then EmptyString else default EmptyString mime.

(** [hashlib.sha256(payload).digest()]: only [bytes] can be hashed. *)
Definition sha256_digest (payload : payload_value) : M bytes :=
  match payload with
  | Bytes b => ret (sha256 E b)
  | Str _ => raise (TypeError "Unicode-objects must be encoded before hashing")
  | NoPayload => raise (TypeError "object supporting the buffer API required")
  end.

Definition init (part : Part) : M t :=
  let mime := effective_content_type part in
  let payload := get_payload part in
  extension <- find_extension E mime ;;
  digest <- sha256_digest payload ;;
  ret (Build part mime payload extension (urlsafe_b64encode digest)).
End init.
End PartHelper.

(** What [render] is given: a helper, or a part still to be wrapped. *)
Inductive render_arg : Type :=
| Helper (h : PartHelper.t)
| Raw (p : Part).

(** [self.render], as the two mixins call it. *)
Abbreviation render_method :=
  (render_arg → gset string → M (payload_value * string)).

(** [self.render_data], as [Mapped.render] calls it. *)
Abbreviation render_data_method :=
  (option Part → gset string → M (option string)).

(** ** class InlineData *)

Module InlineData.
(** Creates a data URI.  Declared with the two parameters [binary] and
    [content_type], and no [self]. *)
Definition data (binary : bytes) (content_type : string) : string :=
  "data:" +:+ content_type +:+ ";base64," +:+ remove_char newline (encodebytes binary).

(** [self.data(binary, content_type)]: the bound call passes the instance as
    well, three arguments for two parameters. *)
Definition self_data (binary : payload_value) (content_type : string) : M string :=
  raise (TypeError "data() takes 2 positional arguments but 3 were given").

(** Evaluation of a name that is bound neither in the function, nor in the
    module, nor in the builtins. *)
Definition unbound_name (name : string) : M string := raise (NameError name).

Section render_data.
Context (E : Externals) (render : render_method).

(** Given a part, and a set of seen parts, render the data as a data: URI. *)
Definition render_data (part : option Part) (seen : gset string) : M (option string) :=
  match part with
  | None => ret None
  | Some part =>
      helper <- PartHelper.init E part ;;
      if bool_decide (PartHelper.digest helper ∈ seen) then ret None
      else
        ph <- unbound_name "ph" ;;
        r <- render (Helper helper) (seen ∪ {[ph]}) ;;
        uri <- self_data (fst r) (snd r) ;;
        ret (Some uri)
  end.
End render_data.
End InlineData.

(** ** class DataDirectory *)

(** [with open(path, "wb") as fh: fh.write(binary)]: the file is created or
    truncated, then [write] accepts bytes only. *)
Definition write_binary (path : string) (binary : payload_value) : M unit :=
  match binary with
  | Bytes b => write_file path b
  | _ => write_file path [] ;; raise (TypeError "a bytes-like object is required")
  end.

Module DataDirectory.
Definition blob_path (digest extension : string) : string :=
  "blob=" +:+ digest +:+ extension.

Section render_data.
Context (E : Externals) (render : render_method).

(** Given a part, and a set of seen parts, render the data as a relative URI. *)
Definition render_data (part : option Part) (seen : gset string) : M (option string) :=
  match part with
  | None => ret None
  | Some part =>
      helper <- PartHelper.init E part ;;
      let path := blob_path (PartHelper.digest helper) (PartHelper.extension helper) in
      if bool_decide (PartHelper.digest helper ∈ seen) then ret (Some path)
      else
        present <- exists_path path ;;
        (if negb present then
           r <- render (Helper helper) (seen ∪ {[PartHelper.digest helper]}) ;;
           write_binary path (fst r)
         else ret tt) ;;
        ret (Some path)
  end.
End render_data.
End DataDirectory.

(** ** urllib.parse.urljoin on what the script passes to it *)

(** An argument of [urljoin]: a [str], or (by way of [doc('base', limit=1)])
    a tag of the parsed document. *)
Inductive url_arg : Type :=
| UStr (s : string)
| UTag (t : node).

(** Python truth: a [str] is true unless empty, a [bs4] tag always. *)
Definition url_truthy (u : url_arg) : bool :=
  match u with
  | UStr s => negb (bool_decide (s = EmptyString))
  | UTag _ => true
  end.

Section urljoin.
Context (E : Externals).

(** [urljoin(base, url)]: an empty [base] gives [url], an empty [url] gives
    [base]; otherwise both must be [str] (the script never passes two
    tags). *)
Definition urljoin (base url : url_arg) : M url_arg :=
  if negb (url_truthy base) then ret url
  else if negb (url_truthy url) then ret base
  else
    match base, url with
    | UStr b, UStr u => ret (UStr (urljoin_str E b u))
    | _, _ => raise (TypeError "Cannot mix str and non-str arguments")
    end.

(** [urljoin] on two [str], where it cannot raise. *)
Definition urljoin_s (base url : string) : string :=
  if bool_decide (base = EmptyString) then url
  else if bool_decide (url = EmptyString) then base
  else urljoin_str E base url.
End urljoin.

(** ** Attributes and trees *)

(** [tag.get(attr)] *)
Fixpoint attr_get (attr : string) (attrs : list (string * string)) : option string :=
  match attrs with
  | [] => None
  | (k, v) :: rest => if bool_decide (k = attr) then Some v else attr_get attr rest
  end.

(** [tag[attr] = value]: in place when the attribute is there, else added last *)
Fixpoint attr_set (attr value : string) (attrs : list (string * string)) : list (string * string) :=
  match attrs with
  | [] => [(attr, value)]
  | (k, v) :: rest =>
      if bool_decide (k = attr) then (k, value) :: rest else (k, v) :: attr_set attr value rest
  end.

(** [doc(name, limit=1)]: the first tag of that name in document order, as a
    list of at most one element. *)
Fixpoint find_first (name : string) (n : node) : list node :=
  match n with
  | NavigableString _ => []
  | Tag nm _ contents =>
      if bool_decide (nm = name) then [n]
      else
        (fix first_of (l : list node) : list node :=
           match l with
           | [] => []
           | c :: l' => match find_first name c with [] => first_of l' | found => found end
           end) contents
  end.

Fixpoint find_all_limit1 (name : string) (doc : list node) : list node :=
  match doc with
  | [] => []
  | c :: doc' => match find_first name c with [] => find_all_limit1 name doc' | found => found end
  end.

(** A loop in [M] over a list, threading an accumulator. *)
Fixpoint foldM {A B} (f : B → A → M B) (acc : B) (l : list A) : M B :=
  match l with
  | [] => ret acc
  | x :: l' => acc' <- f acc x ;; foldM f acc' l'
  end.

(** A list comprehension whose element expression lives in [M]. *)
Fixpoint mapM {A B} (f : A → M B) (l : list A) : M (list B) :=
  match l with
  | [] => ret []
  | x :: l' => y <- f x ;; ys <- mapM f l' ;; ret (y :: ys)
  end.

(** [for tag in doc.descendants], with [visit] applied to the name and the
    attributes of every tag, in document order; strings are passed over. *)
Fixpoint visit_node (visit : string → list (string * string) → M (list (string * string)))
    (n : node) : M node :=
  match n with
  | NavigableString s => ret (NavigableString s)
  | Tag name attrs contents =>
      attrs' <- visit name attrs ;;
      contents' <-
        (fix visit_all (l : list node) : M (list node) :=
           match l with
           | [] => ret []
           | c :: l' => c' <- visit_node visit c ;; l'' <- visit_all l' ;; ret (c' :: l'')
           end) contents ;;
      ret (Tag name attrs' contents')
  end.

Definition visit_descendants (visit : string → list (string * string) → M (list (string * string)))
    (doc : list node) : M (list node) :=
  mapM (visit_node visit) doc.

Definition bool_repr (b : bool) : string := if b then "True" else "False".

(** ** class Mapped *)

Module Mapped.
Record t : Type := Build {
  by_loc : gmap string Part;
  by_id : gmap string Part;
  starts : gset string
}.

(** The class attribute [refs]: for a tag name, the attributes that may hold
    a reference. *)
Definition refs : list (string * list string) :=
  [ ("a", ["href"]);
    ("applet", ["codebase"]);
    ("area", ["href"]);
    ("audio", ["src"]);
    ("blockquote", ["cite"]);
    ("body", ["background"]);
    ("button", ["formaction"]);
    ("command", ["icon"]);
    ("del", ["cite"]);
    ("embed", ["src"]);
    ("form", ["action"]);
    ("frame", ["longdesc"; "src"]);
    ("head", ["profile"]);
    ("html", ["manifest"]);
    ("iframe", ["longdesc"; "src"]);
    ("img", ["longdesc"; "src"; "usemap"]);
    ("input", ["formaction"; "src"; "usemap"]);
    ("ins", ["cite"]);
    ("link", ["href"]);
    ("object", ["classid"; "codebase"; "data"; "usemap"]);
    ("q", ["cite"]);
    ("script", ["src"]);
    ("source", ["src"]);
    ("track", ["src"]);
    ("video", ["poster"; "src"]) ].

(** [Mapped.refs.get(name, ())] *)
Fixpoint refs_get_in (table : list (string * list string)) (name : string) : list string :=
  match table with
  | [] => []
  | (k, v) :: rest => if bool_decide (k = name) then v else refs_get_in rest name
  end.
Definition refs_get (name : string) : list string := refs_get_in refs name.

Section init.
Context (E : Externals).

(** One turn of the loop of [__init__], on one part of [mess.walk()]. *)
Definition index_part (self : t) (part : Part) : t :=
  let starts' :=
    match get_param_start part with
    | Some start => starts self ∪ {[start]}
    | None => starts self
    end in
  let base := default EmptyString (Content_Base part) in
  let by_loc' :=
    match Content_Location part with
    | Some loc => <[urljoin_s E base loc := part]> (by_loc self)
    | None => by_loc self
    end in
  let by_id' :=
    match Content_ID part with
    | Some cid => <[cid := part]> (<[strip_chars "<>" cid := part]> (by_id self))
    | None => by_id self
    end in
  Build by_loc' by_id' starts'.

(** Walks a multipart message and builds indexes into the parts using the
    content-Id and content-location headers. *)
Definition init (walk : list Part) : t :=
  fold_left index_part walk (Build ∅ ∅ ∅).
End init.

Section render.
Context (E : Externals) (self : t) (render_data : render_data_method).

(** [self.by_loc.get(key, None)]; no key of the table is a tag. *)
Definition by_loc_get (key : url_arg) : option Part :=
  match key with
  | UStr k => by_loc self !! k
  | UTag _ => None
  end.

(** The part an attribute value refers to, if any. *)
Definition resolve (base : url_arg) (href : string) : M (option Part) :=
  let href_split := urlsplit E href in
  if bool_decide (scheme href_split = "cid") then ret (by_id self !! path href_split)
  else key <- urljoin E base (UStr href) ;; ret (by_loc_get key).

(** The body of [for attr in Mapped.refs.get(tag.name, ())]. *)
Definition rewrite_attr (base : url_arg) (seen : gset string) (name : string)
    (attrs : list (string * string)) (attr : string) : M (list (string * string)) :=
  let href := strip (default EmptyString (attr_get attr attrs)) in
  if bool_decide (href = EmptyString) then ret attrs
  else
    mref <- resolve base href ;;
    print (name +:+ "." +:+ attr +:+ "=" +:+ href +:+ "; " +:+ bool_repr (bool_decide (is_Some mref))) ;;
    href' <- render_data mref seen ;;
    match href' with
    | Some uri => ret (attr_set attr uri attrs)
    | None => ret attrs
    end.

(** The body of [for tag in doc.descendants], on a tag. *)
Definition rewrite_tag (base : url_arg) (seen : gset string) (name : string)
    (attrs : list (string * string)) : M (list (string * string)) :=
  foldM (rewrite_attr base seen name) attrs (refs_get name).

(** [BeautifulSoup(data)] *)
Definition parse_markup (data : payload_value) : M (list node) :=
  match data with
  | NoPayload => raise (TypeError "object of type 'NoneType' has no len()")
  | _ => ret (BeautifulSoup E data)
  end.

(** The base for the references of a document:
    [[urljoin(loc, base) for base in doc('base', limit=1) + [content_base]][0]] *)
Definition effective_base (part : Part) (doc : list node) : M url_arg :=
  let loc := strip (default EmptyString (Content_Location part)) in
  bases <- mapM (fun base => urljoin E (UStr loc) base)
             (map UTag (find_all_limit1 "base" doc)
              ++ [UStr (default EmptyString (Content_Base part))]) ;;
  match bases with
  | base :: _ => ret base
  | [] => raise IndexError
  end.

(** Renders a message part. *)
Definition render (helper : render_arg) (seen : gset string) : M (payload_value * string) :=
  helper <- match helper with
            | Helper h => ret h
            | Raw p => PartHelper.init E p
            end ;;
  let data := PartHelper.payload helper in
  let content_type := PartHelper.content_type helper in
  let part := PartHelper.part helper in
  if bool_decide (content_type = "text/html") then
    doc <- parse_markup data ;;
    base <- effective_base part doc ;;
    doc' <- visit_descendants (rewrite_tag base seen) doc ;;
    ret (Bytes (doc_encode E doc'), "text/html;charset=utf8")
  else
    match data with
    | Str s => ret (Bytes (utf8_encode E s), content_type +:+ ";charset=utf8")
    | _ => ret (data, content_type)
    end.
End render.
End Mapped.

(** ** class MappedInline(Mapped, InlineData), class MappedRelative(Mapped, DataDirectory)

    [render] and [render_data] call each other through [self].  The recursion
    is not structural, so [render] takes the number of nested [render] calls
    it may still make; [OutOfFuel] is the answer of a call beyond that. *)

Module MappedInline.
Section methods.
Context (E : Externals) (self : Mapped.t).

Fixpoint render (fuel : nat) (helper : render_arg) (seen : gset string) {struct fuel}
    : M (payload_value * string) :=
  Mapped.render E self
    (InlineData.render_data E
       (match fuel with
        | O => fun _ _ => diverge
        | S fuel' => render fuel'
        end))
    helper seen.

Definition render_data (fuel : nat) : render_data_method :=
  InlineData.render_data E (render fuel).
End methods.
End MappedInline.

Module MappedRelative.
Section methods.
Context (E : Externals) (self : Mapped.t).

Fixpoint render (fuel : nat) (helper : render_arg) (seen : gset string) {struct fuel}
    : M (payload_value * string) :=
  Mapped.render E self
    (DataDirectory.render_data E
       (match fuel with
        | O => fun _ _ => diverge
        | S fuel' => render fuel'
        end))
    helper seen.

Definition render_data (fuel : nat) : render_data_method :=
  DataDirectory.render_data E (render fuel).
End methods.
End MappedRelative.

(** ** A small instance of the libraries

    Enough of each imported library to run the definitions above on concrete
    messages: a hash that pads or cuts its input to 32 bytes, a sniffer that
    knows the PNG signature, a three-line extension registry, URLs split at the
    first colon and joined by replacing what follows the last slash, and documents given by the first
    byte of their markup. *)

Module Sample.
Definition sha256_pad (b : bytes) : bytes := resize 32 x00 b.

Definition id_buffer (payload : payload_value) : option string :=
  match payload with
  | Bytes (x89 :: x50 :: _) => Some "image/png"
  | _ => None
  end.

Definition guess_ext (mime_type : string) : list string :=
  if bool_decide (mime_type = "image/png") then [".png"]
  else if bool_decide (mime_type = "image/gif") then [".gif"]
  else if bool_decide (mime_type = "text/css") then [".kss"; ".css"]
  else [].

Fixpoint split_colon (s : string) : option (string * string) :=
  match s with
  | EmptyString => None
  | String c s' =>
      if bool_decide (c = ":"%char) then Some (EmptyString, s')
      else match split_colon s' with
           | Some (a, b) => Some (String c a, b)
           | None => None
           end
  end.

Definition urlsplit_colon (url : string) : SplitResult :=
  match split_colon url with
  | Some (a, b) => {| scheme := a; path := b |}
  | None => {| scheme := EmptyString; path := url |}
  end.

(** The string up to and including its last slash. *)
Fixpoint directory (s : string) : string :=
  match s with
  | EmptyString => EmptyString
  | String c s' =>
      if contains "/" s' then String c (directory s')
      else if bool_decide (c = "/"%char) then String c EmptyString
      else EmptyString
  end.

Definition urljoin_concat (base url : string) : string :=
  if contains ":" url then url else directory base +:+ url.

Definition tag_img (src : string) : node := Tag "img" [("alt", "x"); ("src", src)] [].
Definition tag_a (href : string) : node := Tag "a" [("href", href)] [NavigableString "link"].
Definition page (body : list node) : list node :=
  [Tag "html" [] [Tag "head" [] []; Tag "body" [] body]].

(** Markup whose first byte is
    - [x01]: a page with a link to itself, ["http://h/a.html"];
    - [x02]: a page with a link to ["b.html"];
    - [x03]: a page with a link to ["a.html"] and an image ["cid:image1"];
    - [x04]: a page with a [<base>] element and an image ["pic.png"];
    - [x05]: a page with the image ["cid:image1"] twice. *)
Definition soup (data : payload_value) : list node :=
  match data with
  | Bytes (x01 :: _) => page [tag_a "http://h/a.html"]
  | Bytes (x02 :: _) => page [tag_a " b.html "]
  | Bytes (x03 :: _) => page [tag_a "a.html"; tag_img "cid:image1"]
  | Bytes (x04 :: _) =>
      [Tag "html" [] [Tag "head" [] [Tag "base" [("href", "http://other/")] []];
                      Tag "body" [] [tag_img "pic.png"]]]
  | Bytes (x05 :: _) => page [tag_img "cid:image1"; tag_img "cid:image1"]
  | _ => page []
  end.

Definition encode_ascii (s : string) : bytes := list_byte_of_string s.

Fixpoint attrs_to_string (attrs : list (string * string)) : string :=
  match attrs with
  | [] => EmptyString
  | (k, v) :: rest => " " +:+ k +:+ "='" +:+ v +:+ "'" +:+ attrs_to_string rest
  end.

Fixpoint node_to_string (n : node) : string :=
  match n with
  | NavigableString s => s
  | Tag name attrs contents =>
      "<" +:+ name +:+ attrs_to_string attrs +:+ ">"
      +:+ (fix all (l : list node) : string :=
             match l with
             | [] => EmptyString
             | c :: l' => node_to_string c +:+ all l'
             end) contents
      +:+ "</" +:+ name +:+ ">"
  end.

Definition encode_doc (doc : list node) : bytes :=
  list_byte_of_string (String.concat EmptyString (map node_to_string doc)).

(** The libraries with [filemagic] installed, and without. *)
Definition E : Externals :=
  {| sha256 := sha256_pad;
     magic_obj := Some id_buffer;
     guess_all_extensions := guess_ext;
     urlsplit := urlsplit_colon;
     urljoin_str := urljoin_concat;
     BeautifulSoup := soup;
     doc_encode := encode_doc;
     utf8_encode := encode_ascii |}.

Definition E_no_magic : Externals :=
  {| sha256 := sha256_pad;
     magic_obj := None;
     guess_all_extensions := guess_ext;
     urlsplit := urlsplit_colon;
     urljoin_str := urljoin_concat;
     BeautifulSoup := soup;
     doc_encode := encode_doc;
     utf8_encode := encode_ascii |}.

Definition mk_part (ctype : string) (payload : bytes) (loc cid : option string) : Part :=
  {| get_content_type := Some ctype;
     get_payload := Bytes payload;
     get_param_start := None;
     Content_Base := None;
     Content_Location := loc;
     Content_ID := cid;
     is_multipart := false |}.

(** A page that links to itself. *)
Definition part_self : Part := mk_part "text/html" [x01] (Some "http://h/a.html") None.
(** Two pages that link to each other, the second with an image. *)
Definition part_a : Part := mk_part "text/html" [x02] (Some "http://h/a.html") (Some "<root>").
Definition part_b : Part := mk_part "text/html" [x03] (Some "http://h/b.html") None.
Definition part_image : Part := mk_part "image/jpeg" [xff; xd8; xff] None (Some "<image1>").
(** A page with a [<base>] element. *)
Definition part_based : Part := mk_part "text/html" [x04] (Some "http://h/c.html") None.
(** A page with the same image twice. *)
Definition part_twice : Part := mk_part "text/html" [x05] (Some "http://h/d.html") None.
(** A PNG declared as a stream of octets. *)
Definition part_png : Part :=
  mk_part "application/octet-stream" [x89; x50; x4e; x47] (Some "http://h/pic.png") None.

(** Two pages of the HTML family whose content type is not ["text/html"]. *)
Definition part_xhtml : Part :=
  mk_part "application/xhtml+xml" [x01] (Some "http://h/x.xhtml") None.
Definition part_upper : Part := mk_part "Text/HTML" [x01] (Some "http://h/u.html") None.

Definition container : Part :=
  {| get_content_type := Some "multipart/related";
     get_payload := NoPayload;
     get_param_start := Some "<root>";
     Content_Base := None;
     Content_Location := None;
     Content_ID := None;
     is_multipart := true |}.

Definition cyclic : Mapped.t := Mapped.init E [container; part_a; part_b; part_image].
Definition selfish : Mapped.t := Mapped.init E [container; part_self].
End Sample.

(** ** Vocabulary of the statements *)

(** [x] is no larger than any element of [l]. *)
Definition lower_bound (x : string) (l : list string) : Prop :=
  ∀ y, y ∈ l → String.leb x y = true.

(** The extension [find_extension] picks among the candidates of the registry. *)
Definition first_extension (candidates : list string) : string :=
  default EmptyString (head (sorted candidates ++ [EmptyString])).

(** What [find_extension] answers for a mime type in a world: the entry of
    the cache, else the pick among the candidates of the registry. *)
Definition extension_in (E : Externals) (w : world) (mime_type : string) : string :=
  match common_types w !! lower mime_type with
  | Some ext => ext
  | None => first_extension (guess_all_extensions E (lower mime_type))
  end.

(** The digest [PartHelper] gives to a payload of bytes. *)
Definition digest_of (E : Externals) (b : bytes) : string :=
  urlsafe_b64encode (sha256 E b).

(** The reference to a target is guarded by [seen]: there is no target, or its
    payload is a byte sequence whose digest is in [seen]. *)
Definition guarded (E : Externals) (seen : gset string) (mref : option Part) : Prop :=
  match mref with
  | None => True
  | Some part => ∃ b, get_payload part = Bytes b ∧ digest_of E b ∈ seen
  end.

(** The name of the blob of a part in a world. *)
Definition blob_of (E : Externals) (w : world) (part : Part) : option string :=
  match get_payload part with
  | Bytes b =>
      Some (DataDirectory.blob_path (digest_of E b)
              (extension_in E w (PartHelper.effective_content_type E part)))
  | _ => None
  end.

(** The parts the two tables of an index hold. *)
Definition targets (self : Mapped.t) : list Part :=
  (map_to_list (Mapped.by_loc self)).*2 ++ (map_to_list (Mapped.by_id self)).*2.

Definition part_digest (E : Externals) (part : Part) : option string :=
  match get_payload part with
  | Bytes b => Some (digest_of E b)
  | _ => None
  end.

(** The digests of the parts an index holds. *)
Definition index_digests (E : Externals) (self : Mapped.t) : gset string :=
  list_to_set (omap (part_digest E) (targets self)).

(** Nested [render] calls that suffice under a guard set: one for each digest
    of the index that is not yet guarded. *)
Definition fuel_bound (E : Externals) (self : Mapped.t) (seen : gset string) : nat :=
  size (index_digests E self ∖ seen).

(** From [w] to [w'] files were only written under fresh names of blobs whose
    digest is not in [seen], each name once. *)
Definition fresh_writes (E : Externals) (seen : gset string) (w w' : world) : Prop :=
  ∃ log : list (string * bytes),
    writes w' = writes w ++ log ∧
    NoDup log.*1 ∧
    (∀ p, p ∈ log.*1 →
       files w !! p = None ∧
       ∃ b ext, p = DataDirectory.blob_path (digest_of E b) ext ∧ digest_of E b ∉ seen) ∧
    (∀ p, is_Some (files w' !! p) ↔ is_Some (files w !! p) ∨ p ∈ log.*1).

(** The part a reference denotes under a base URL: by content-ID for the
    scheme [cid], by location otherwise. *)
Definition target_of (E : Externals) (self : Mapped.t) (base href : string) : option Part :=
  if bool_decide (scheme (urlsplit E href) = "cid")
  then Mapped.by_id self !! path (urlsplit E href)
  else Mapped.by_loc self !! urljoin_s E base href.

(** Step 1 of [render]: the helper of its argument. *)
Definition wrap (E : Externals) (arg : render_arg) : M PartHelper.t :=
  match arg with
  | Helper h => ret h
  | Raw p => PartHelper.init E p
  end.

(** The content type [render] branches on. *)
Definition arg_content_type (E : Externals) (arg : render_arg) : string :=
  match arg with
  | Helper h => PartHelper.content_type h
  | Raw p => PartHelper.effective_content_type E p
  end.

(** What [render] returns for a helper without looking at markup: a textual
    payload encoded and tagged with the charset, any other payload as it is. *)
Definition render_plain (E : Externals) (h : PartHelper.t) : payload_value * string :=
  match PartHelper.payload h with
  | Str s => (Bytes (utf8_encode E s), PartHelper.content_type h +:+ ";charset=utf8")
  | data => (data, PartHelper.content_type h)
  end.

(** A reference that stays within the index: no target, or one of its parts. *)
Definition in_index (self : Mapped.t) (mref : option Part) : Prop :=
  ∀ part, mref = Some part → part ∈ targets self.

(** Two actions of [M] with the same runs. *)
Definition agree {A} (m1 m2 : M A) : Prop := ∀ w, m1 w = m2 w.

(** An action of [M] that never runs out of fuel. *)
Definition total {A} (m : M A) : Prop := ∀ w, fst (m w) ≠ OutOfFuel.

(** An action of [M] whose every run takes the world along [R]. *)
Definition steps {A} (R : world → world → Prop) (m : M A) : Prop := ∀ w, R w (snd (m w)).

(** An action of [M] whose values satisfy [P]. *)
Definition returns {A} (P : A → Prop) (m : M A) : Prop := ∀ w a w', m w = (Ok a, w') → P a.

(** No file was touched from [w] to [w']. *)
Definition same_files (w w' : world) : Prop := files w' = files w ∧ writes w' = writes w.

(** The extension cache only gained entries from [w] to [w']. *)
Definition cache_grows (w w' : world) : Prop := common_types w ⊆ common_types w'.

(** Printing and new cache entries apart, nothing happened from [w] to [w']. *)
Definition quiet (w w' : world) : Prop := same_files w w' ∧ cache_grows w w'.

(** A stretch of a run of the directory variant under the guard set [seen]. *)
Definition directory_step (E : Externals) (seen : gset string) (w w' : world) : Prop :=
  fresh_writes E seen w w' ∧ cache_grows w w'.

(** ** The driver ([if __name__ == '__main__':])

    The driver has its own state: the world of the engine and the lines
    printed to [sys.stderr].  An input is a path of [sys.argv[1:]] together
    with the parts [mess.walk()] gives for the message the file holds; opening
    and parsing the file are taken to succeed.  The order in which a [set] is
    iterated is not fixed by the language: it is the parameter [iter]. *)

Module Main.
Inductive variant : Type :=
| Inline
| Relative.

Record process : Type := Process {
  os : world;
  stderr : list string
}.

(** How the script ends. *)
Inductive exit : Type :=
| Finished
| Uncaught (e : exn)
| AttributeError (msg : string)
| Exhausted.

(** [con = MappedRelative if "file" in sys.argv[0] else MappedInline] *)
Definition con (argv0 : string) : variant :=
  if contains "file" argv0 then Relative else Inline.

(** The loop over [mapper.starts], in the order of iteration. *)
Fixpoint first_start (by_id : gmap string Part) (starts : list string) : option Part :=
  match starts with
  | [] => None
  | start :: rest =>
      match by_id !! start with
      | Some root => Some root
      | None => first_start by_id rest
      end
  end.

(** The loop over [mess.walk()] for a part that is not multipart. *)
Fixpoint first_leaf (walk : list Part) : option Part :=
  match walk with
  | [] => None
  | part :: rest => if negb (is_multipart part) then Some part else first_leaf rest
  end.

Section main.
Context (E : Externals) (iter : gset string → list string).

Definition find_root (mapper : Mapped.t) (walk : list Part) : option Part :=
  match first_start (Mapped.by_id mapper) (iter (Mapped.starts mapper)) with
  | Some root => Some root
  | None => first_leaf walk
  end.

(** [mapper.render(root)], with one nested call for each part of the message. *)
Definition render_root (con : variant) (mapper : Mapped.t) (walk : list Part) (root : Part)
    : M (payload_value * string) :=
  match con with
  | Inline => MappedInline.render E mapper (length walk) (Raw root) ∅
  | Relative => MappedRelative.render E mapper (length walk) (Raw root) ∅
  end.

(** The loop over [sys.argv[1:]].  After [render], [op.split_ext] is looked
    up in [os.path], which has [splitext] and no [split_ext]: the lines that
    would open and write the converted document are not reached. *)
Fixpoint main (con : variant) (inputs : list (string * list Part)) (p : process)
    : exit * process :=
  match inputs with
  | [] => (Finished, p)
  | (path, walk) :: rest =>
      let mapper := Mapped.init E walk in
      match find_root mapper walk with
      | None =>
          main con rest (Process (os p) (stderr p ++ [path +:+ " : Can't find root node"]))
      | Some root =>
          match render_root con mapper walk root (os p) with
          | (Ok _, w) =>
              (AttributeError "module 'posixpath' has no attribute 'split_ext'",
               Process w (stderr p))
          | (Raise e, w) => (Uncaught e, Process w (stderr p))
          | (OutOfFuel, w) => (Exhausted, Process w (stderr p))
          end
      end
  end.
End main.
End Main.

(** ** More vocabulary *)

(** A part answers to a key of [by_id]: its Content-ID is the key, as it is or
    without its angle brackets. *)
Definition id_key (k : string) (part : Part) : bool :=
  match Content_ID part with
  | Some cid => bool_decide (cid = k) || bool_decide (strip_chars "<>" cid = k)
  | None => false
  end.

(** A part answers to a key of [by_loc]: its Content-Location joined against
    its Content-Base is the key. *)
Definition loc_key (E : Externals) (k : string) (part : Part) : bool :=
  match Content_Location part with
  | Some loc => bool_decide (urljoin_s E (default EmptyString (Content_Base part)) loc = k)
  | None => false
  end.

(** The attributes of a tag with the values of its reference attributes
    blanked. *)
Definition blank_attrs (name : string) (attrs : list (string * string))
    : list (string * string) :=
  map (λ kv, if bool_decide (kv.1 ∈ Mapped.refs_get name) then (kv.1, EmptyString) else kv) attrs.

(** A node with the values of all reference attributes blanked: what is left
    is its elements, its strings, the names and the order of its attributes and
    the values of the attributes that hold no reference. *)
Fixpoint blank (n : node) : node :=
  match n with
  | NavigableString s => NavigableString s
  | Tag name attrs contents => Tag name (blank_attrs name attrs) (map blank contents)
  end.

(** An input of the driver without a root: no start parameter names a
    content-ID of the index and every part is multipart. *)
Definition rootless (E : Externals) (input : string * list Part) : Prop :=
  (∀ start, start ∈ Mapped.starts (Mapped.init E input.2) →
            Mapped.by_id (Mapped.init E input.2) !! start = None) ∧
  Forall (λ part, is_multipart part = true) input.2.

(** The line the driver prints to [sys.stderr] for an input without a root. *)
Definition no_root_line (input : string * list Part) : string :=
  input.1 +:+ " : Can't find root node".

(** Files were only added from [w] to [w']: none was removed or overwritten. *)
Definition keeps_files (w w' : world) : Prop := files w ⊆ files w'.

(** An action of [M] that always returns [a], quietly. *)
Definition stays {A} (a : A) (m : M A) : Prop := ∀ w, ∃ w', m w = (Ok a, w') ∧ quiet w w'.

(** A stretch of a run of the directory variant that keeps the files there
    were. *)
Definition directory_keeps (E : Externals) (seen : gset string) (w w' : world) : Prop :=
  directory_step E seen w w' ∧ keeps_files w w'.

(** * Properties *)

(** ** Strings and sorting *)

Lemma lower_ascii_idemp (c : ascii) : lower_ascii (lower_ascii c) = lower_ascii c.
Proof. destruct c as [[] [] [] [] [] [] [] []]; reflexivity. Qed.

Lemma lower_idemp (s : string) : lower (lower s) = lower s.
Proof.
  induction s as [|c s IH]; simpl; [reflexivity|].
  by rewrite lower_ascii_idemp, IH.
Qed.

Lemma ascii_compare_N (a b : ascii) :
  Ascii.compare a b = N.compare (N_of_ascii a) (N_of_ascii b).
Proof. reflexivity. Qed.

Lemma string_leb_cons (a b : ascii) (s t : string) :
  String.leb (String a s) (String b t) = true ↔
  (N_of_ascii a < N_of_ascii b)%N ∨ (a = b ∧ String.leb s t = true).
Proof.
  unfold String.leb; simpl. rewrite ascii_compare_N.
  destruct (N.compare_spec (N_of_ascii a) (N_of_ascii b)) as [Heq|Hlt|Hgt].
  - apply (f_equal ascii_of_N) in Heq. rewrite !ascii_N_embedding in Heq. subst b.
    split; [intros H; right; done | intros [H|[_ H]]; [lia | done]].
  - split; [intros _; by left | done].
  - split; [done | intros [H|[-> _]]; lia].
Qed.

Lemma string_leb_trans (s t u : string) :
  String.leb s t = true → String.leb t u = true → String.leb s u = true.
Proof.
  revert t u. induction s as [|a s IH]; intros t u Hst Htu.
  - by destruct u.
  - destruct t as [|b t]; [done|]. destruct u as [|c u]; [done|].
    apply string_leb_cons in Hst. apply string_leb_cons in Htu. apply string_leb_cons.
    destruct Hst as [Hab|[-> Hst]], Htu as [Hbc|[-> Htu]].
    + left. lia.
    + by left.
    + by left.
    + right. eauto.
Qed.

Lemma string_leb_refl (s : string) : String.leb s s = true.
Proof. destruct (String.leb_total s s); done. Qed.

Lemma insert_sorted_elem (x y : string) (l : list string) :
  y ∈ insert_sorted x l ↔ y = x ∨ y ∈ l.
Proof.
  induction l as [|z l IH]; simpl.
  - rewrite !elem_of_cons. tauto.
  - destruct (String.leb x z); rewrite !elem_of_cons; [tauto|]. rewrite IH. tauto.
Qed.

Lemma sorted_elem (y : string) (l : list string) : y ∈ sorted l ↔ y ∈ l.
Proof.
  induction l as [|x l IH]; simpl; [done|].
  rewrite insert_sorted_elem, elem_of_cons, IH. tauto.
Qed.

Lemma insert_sorted_head (x : string) (l : list string) :
  (∀ h, head l = Some h → lower_bound h l) →
  ∃ h, head (insert_sorted x l) = Some h ∧ lower_bound h (insert_sorted x l).
Proof.
  intros Hl. destruct l as [|z l]; simpl.
  - exists x. split; [done|]. intros y Hy. apply list_elem_of_singleton in Hy as ->.
    apply string_leb_refl.
  - specialize (Hl z eq_refl). destruct (String.leb x z) eqn:Hxz.
    + exists x. split; [done|]. intros y Hy.
      apply elem_of_cons in Hy as [->|Hy]; [apply string_leb_refl|].
      eapply string_leb_trans; [exact Hxz | by apply Hl].
    + exists z. split; [done|]. intros y Hy.
      apply elem_of_cons in Hy as [->|Hy]; [apply string_leb_refl|].
      apply insert_sorted_elem in Hy as [->|Hy].
      * destruct (String.leb_total x z); congruence.
      * apply Hl. by right.
Qed.

Lemma sorted_head (l : list string) :
  ∀ h, head (sorted l) = Some h → lower_bound h (sorted l).
Proof.
  induction l as [|x l IH]; simpl; [done|].
  intros h Hh. destruct (insert_sorted_head x (sorted l) IH) as (h' & Hh' & Hlb).
  rewrite Hh in Hh'. by inversion Hh'; subst.
Qed.

Lemma first_extension_spec (candidates : list string) :
  (candidates = [] ∧ first_extension candidates = EmptyString) ∨
  (first_extension candidates ∈ candidates ∧
   lower_bound (first_extension candidates) candidates).
Proof.
  unfold first_extension. destruct (sorted candidates) as [|h l] eqn:Hs.
  - left. split; [|done]. destruct candidates as [|x c]; [done|].
    assert (x ∈ sorted (x :: c)) as Hx by (apply sorted_elem; left).
    rewrite Hs in Hx. by apply elem_of_nil in Hx.
  - right. simpl. split.
    + apply sorted_elem. rewrite Hs. left.
    + intros y Hy. apply (sorted_head candidates h); [by rewrite Hs|by apply sorted_elem].
Qed.

(** ** find_extension *)

Lemma find_extension_unfold (E : Externals) (m : string) (w : world) :
  find_extension E m w =
  match common_types w !! lower m with
  | Some ext => (Ok ext, w)
  | None =>
      let ext := first_extension (guess_all_extensions E (lower m)) in
      (Ok ext,
       World (<[lower m := ext]> (common_types w)) (files w) (writes w)
             (stdout w ++ ["  " +:+ lower m +:+ " -> '" +:+ ext +:+ "'"]))
  end.
Proof.
  unfold find_extension, bind, lookup_common_type. simpl.
  destruct (common_types w !! lower m); reflexivity.
Qed.

(** A call never raises, and touches nothing but the cache and the output. *)
Lemma find_extension_ok (E : Externals) (m : string) (w : world) :
  ∃ ext w', find_extension E m w = (Ok ext, w') ∧
            common_types w ⊆ common_types w' ∧
            common_types w' !! lower m = Some ext ∧
            files w' = files w ∧ writes w' = writes w.
Proof.
  rewrite find_extension_unfold. destruct (common_types w !! lower m) as [e|] eqn:Hc.
  - exists e, w. done.
  - eexists _, _. split; [reflexivity|]. simpl. split_and!; try done.
    + by apply insert_subseteq.
    + apply lookup_insert_eq.
Qed.

(** C10. [find_extension] does not depend on the case of its argument, and its
    first answer for a type is the answer of every later call: a call finds the
    entry of the table [common_types] (the hard-coded ones included) if there
    is one, else it picks the smallest candidate of the registry, or the empty
    string when there is none, and stores it; the stored entry survives
    whatever the cache gains later, and then the registry is not asked. *)
Theorem find_extension_case_insensitive_cached (E : Externals) (m : string) (w : world) :
  find_extension E m w = find_extension E (lower m) w ∧
  ∃ ext w1,
    find_extension E m w = (Ok ext, w1) ∧
    match common_types w !! lower m with
    | Some e => ext = e ∧ w1 = w
    | None =>
        let candidates := guess_all_extensions E (lower m) in
        (candidates = [] ∧ ext = EmptyString) ∨ (ext ∈ candidates ∧ lower_bound ext candidates)
    end ∧
    (∀ e, initial_common_types !! lower m = Some e →
          initial_common_types ⊆ common_types w → ext = e) ∧
    common_types w ⊆ common_types w1 ∧
    (∀ (E' : Externals) (w2 : world),
       common_types w1 ⊆ common_types w2 → find_extension E' m w2 = (Ok ext, w2)).
Proof.
  split.
  { rewrite !find_extension_unfold. by rewrite lower_idemp. }
  destruct (find_extension_ok E m w) as (ext & w1 & Hrun & Hsub & Hin & _).
  exists ext, w1. split; [exact Hrun|].
  rewrite find_extension_unfold in Hrun. split_and!.
  - destruct (common_types w !! lower m) as [e|] eqn:Hc.
    + by inversion Hrun.
    + simpl in Hrun. inversion Hrun as [[Hext Hw]].
      destruct (first_extension_spec (guess_all_extensions E (lower m))) as [[? ?]|[? ?]];
        [left|right]; done.
  - intros e He Hinit. pose proof (lookup_weaken _ _ _ _ He Hinit) as Hw.
    rewrite Hw in Hrun. by inversion Hrun.
  - exact Hsub.
  - intros E' w2 Hw2. rewrite find_extension_unfold.
    by rewrite (lookup_weaken _ _ _ _ Hin Hw2).
Qed.

(** ** PartHelper *)

Lemma find_extension_run (E : Externals) (m : string) (w : world) :
  ∃ w', find_extension E m w = (Ok (extension_in E w m), w') ∧
        common_types w ⊆ common_types w' ∧ same_files w w'.
Proof.
  rewrite find_extension_unfold. unfold extension_in, same_files.
  destruct (common_types w !! lower m) as [e|] eqn:Hc.
  - by exists w.
  - eexists. split; [reflexivity|]. simpl. split; [|done]. by apply insert_subseteq.
Qed.

Lemma init_bytes (E : Externals) (part : Part) (b : bytes) (w : world) :
  get_payload part = Bytes b →
  ∃ w', PartHelper.init E part w =
          (Ok (PartHelper.Build part (PartHelper.effective_content_type E part) (Bytes b)
                 (extension_in E w (PartHelper.effective_content_type E part))
                 (digest_of E b)), w') ∧
        common_types w ⊆ common_types w' ∧ same_files w w'.
Proof.
  intros Hb. unfold PartHelper.init, bind.
  destruct (find_extension_run E (PartHelper.effective_content_type E part) w)
    as (w' & -> & Hsub & Hsame).
  exists w'. rewrite Hb. simpl. done.
Qed.

Lemma init_not_bytes (E : Externals) (part : Part) (w : world) :
  (∀ b, get_payload part ≠ Bytes b) →
  ∃ msg w', PartHelper.init E part w = (Raise (TypeError msg), w') ∧ same_files w w'.
Proof.
  intros Hb. unfold PartHelper.init, bind.
  destruct (find_extension_run E (PartHelper.effective_content_type E part) w)
    as (w' & -> & Hsub & Hsame).
  destruct (get_payload part) as [b| |] eqn:Hp; [by destruct (Hb b)| |]; simpl; eauto.
Qed.

(** ** InlineData.render_data *)

(** The data URI [data] builds, were it called with its two arguments. *)
Example data_uri_sample :
  InlineData.data [x01; x02; x03; x04] "image/png" = "data:image/png;base64,AQIDBA==".
Proof. reflexivity. Qed.

Lemma inline_render_data_fresh (E : Externals) (render : render_method)
    (part : Part) (b : bytes) (seen : gset string) (w : world) :
  get_payload part = Bytes b → digest_of E b ∉ seen →
  fst (InlineData.render_data E render (Some part) seen w) = Raise (NameError "ph").
Proof.
  intros Hb Hfresh. unfold InlineData.render_data, bind.
  destruct (init_bytes E part b w Hb) as (w' & -> & _). simpl.
  by rewrite bool_decide_eq_false_2.
Qed.

(** C1, as the code has it.  For a part with a payload of bytes whose digest
    is not in the guard set, the inline [render_data] does not reach the
    recursive [render]: building the extended guard set evaluates the name
    [ph], which is bound nowhere, and the call ends in [NameError]; no data
    URI is returned. *)
Theorem inline_render_data_fresh_raises (E : Externals) (self : Mapped.t) (fuel : nat)
    (part : Part) (b : bytes) (seen : gset string) (w : world) :
  get_payload part = Bytes b → digest_of E b ∉ seen →
  fst (MappedInline.render_data E self fuel (Some part) seen w) = Raise (NameError "ph").
Proof. apply inline_render_data_fresh. Qed.

Lemma inline_render_data_fresh_raises_witness :
  get_payload Sample.part_image = Bytes [xff; xd8; xff] ∧
  (digest_of Sample.E [xff; xd8; xff] ∉ (∅ : gset string)) ∧
  fst (MappedInline.render_data Sample.E Sample.cyclic 3 (Some Sample.part_image) ∅ initial_world)
  = Raise (NameError "ph").
Proof.
  split; [reflexivity|]. split; [apply not_elem_of_empty|].
  apply (inline_render_data_fresh_raises Sample.E Sample.cyclic 3 Sample.part_image
           [xff; xd8; xff] ∅ initial_world); [reflexivity|apply not_elem_of_empty].
Defined.

(** ** render_data on a guarded reference *)

Lemma inline_render_data_guarded (E : Externals) (render : render_method)
    (mref : option Part) (seen : gset string) (w : world) :
  guarded E seen mref →
  ∃ w', InlineData.render_data E render mref seen w = (Ok None, w') ∧
        common_types w ⊆ common_types w' ∧ same_files w w'.
Proof.
  destruct mref as [part|]; simpl.
  - intros (b & Hb & Hseen). unfold bind.
    destruct (init_bytes E part b w Hb) as (w' & -> & Hsub & Hsame). simpl.
    rewrite bool_decide_eq_true_2 by done. by exists w'.
  - intros _. by exists w.
Qed.

Lemma directory_render_data_guarded (E : Externals) (render : render_method)
    (mref : option Part) (seen : gset string) (w : world) :
  guarded E seen mref →
  ∃ w', DataDirectory.render_data E render mref seen w = (Ok (mref ≫= blob_of E w), w') ∧
        common_types w ⊆ common_types w' ∧ same_files w w'.
Proof.
  destruct mref as [part|]; simpl.
  - intros (b & Hb & Hseen). unfold bind, blob_of.
    destruct (init_bytes E part b w Hb) as (w' & -> & Hsub & Hsame). simpl.
    rewrite bool_decide_eq_true_2 by done. rewrite Hb. by exists w'.
  - intros _. by exists w.
Qed.

Lemma urljoin_world (E : Externals) (base url : url_arg) (w : world) :
  snd (urljoin E base url w) = w.
Proof.
  unfold urljoin. destruct (url_truthy base), (url_truthy url); simpl; try done.
  by destruct base, url.
Qed.

Lemma resolve_world (E : Externals) (self : Mapped.t) (base : url_arg) (href : string)
    (w : world) :
  snd (Mapped.resolve E self base href w) = w.
Proof.
  unfold Mapped.resolve. case_bool_decide; [done|]. unfold bind.
  pose proof (urljoin_world E base (UStr href) w) as Hw.
  destruct (urljoin E base (UStr href) w) as [[k|e|] w']; simpl in *; by subst.
Qed.

Lemma blob_of_print (E : Externals) (w : world) (line : string) (part : Part) :
  blob_of E (snd (print line w)) part = blob_of E w part.
Proof. reflexivity. Qed.

(** What [rewrite_attr] does once the reference is resolved. *)
Lemma rewrite_attr_resolved (E : Externals) (self : Mapped.t) (render_data : render_data_method)
    (base : url_arg) (seen : gset string) (name : string) (attrs : list (string * string))
    (attr : string) (mref : option Part) (w : world) :
  let href := strip (default EmptyString (attr_get attr attrs)) in
  href ≠ EmptyString →
  fst (Mapped.resolve E self base href w) = Ok mref →
  Mapped.rewrite_attr E self render_data base seen name attrs attr w =
  (uri <- render_data mref seen ;;
   match uri with
   | Some uri => ret (attr_set attr uri attrs)
   | None => ret attrs
   end)
    (snd (print (name +:+ "." +:+ attr +:+ "=" +:+ href +:+ "; "
                   +:+ bool_repr (bool_decide (is_Some mref))) w)).
Proof.
  intros href Hne Hres. unfold Mapped.rewrite_attr. fold href.
  rewrite bool_decide_eq_false_2 by done.
  unfold bind at 1. pose proof (resolve_world E self base href w) as Hw.
  destruct (Mapped.resolve E self base href w) as [r w']; simpl in *. subst. reflexivity.
Qed.

(** C2, as the code has it.  On a guarded reference (no target, or a target
    whose digest is in the guard set) the inline [render_data] returns null,
    and so does the directory one when there is no target; for a target whose
    digest is in the guard set the directory [render_data] returns the name of
    its blob, without rendering or writing.  So an attribute that resolves to
    a guarded target is left as it is by the inline variant, and is rewritten
    to the name of the blob by the directory variant. *)
Theorem render_data_guarded (E : Externals) (self : Mapped.t) (fuel : nat)
    (mref : option Part) (seen : gset string) (w : world) :
  guarded E seen mref →
  fst (MappedInline.render_data E self fuel mref seen w) = Ok None ∧
  fst (MappedRelative.render_data E self fuel mref seen w) = Ok (mref ≫= blob_of E w) ∧
  same_files w (snd (MappedRelative.render_data E self fuel mref seen w)) ∧
  ∀ (base : url_arg) (name : string) (attrs : list (string * string)) (attr : string),
    let href := strip (default EmptyString (attr_get attr attrs)) in
    href ≠ EmptyString →
    fst (Mapped.resolve E self base href w) = Ok mref →
    fst (Mapped.rewrite_attr E self (MappedInline.render_data E self fuel)
           base seen name attrs attr w) = Ok attrs ∧
    fst (Mapped.rewrite_attr E self (MappedRelative.render_data E self fuel)
           base seen name attrs attr w)
    = Ok (match mref ≫= blob_of E w with
          | Some uri => attr_set attr uri attrs
          | None => attrs
          end).
Proof.
  intros Hg. split_and!.
  - destruct (inline_render_data_guarded E (MappedInline.render E self fuel) mref seen w Hg)
      as (w' & Hrun & _).
    unfold MappedInline.render_data. by rewrite Hrun.
  - destruct (directory_render_data_guarded E (MappedRelative.render E self fuel) mref seen w Hg)
      as (w' & Hrun & _).
    unfold MappedRelative.render_data. by rewrite Hrun.
  - destruct (directory_render_data_guarded E (MappedRelative.render E self fuel) mref seen w Hg)
      as (w' & Hrun & _ & Hsame).
    unfold MappedRelative.render_data. by rewrite Hrun.
  - intros base name attrs attr href Hne Hres. split.
    + rewrite (rewrite_attr_resolved E self _ base seen name attrs attr mref w Hne Hres).
      fold href. set (w1 := snd (print _ w)). unfold bind.
      destruct (inline_render_data_guarded E (MappedInline.render E self fuel) mref seen w1 Hg)
        as (w' & Hrun & _).
      unfold MappedInline.render_data. by rewrite Hrun.
    + rewrite (rewrite_attr_resolved E self _ base seen name attrs attr mref w Hne Hres).
      fold href. set (w1 := snd (print _ w)). unfold bind.
      destruct (directory_render_data_guarded E (MappedRelative.render E self fuel) mref seen w1 Hg)
        as (w' & Hrun & _).
      unfold MappedRelative.render_data. rewrite Hrun.
      replace (mref ≫= blob_of E w1) with (mref ≫= blob_of E w) by by destruct mref.
      by destruct (mref ≫= blob_of E w).
Qed.

Lemma render_data_guarded_witness :
  guarded Sample.E {[digest_of Sample.E [xff; xd8; xff]]} (Some Sample.part_image) ∧
  fst (MappedInline.render_data Sample.E Sample.cyclic 3 (Some Sample.part_image)
         {[digest_of Sample.E [xff; xd8; xff]]} initial_world) = Ok None ∧
  fst (MappedRelative.render_data Sample.E Sample.cyclic 3 (Some Sample.part_image)
         {[digest_of Sample.E [xff; xd8; xff]]} initial_world)
  = Ok (Some Sample.part_image ≫= blob_of Sample.E initial_world).
Proof.
  assert (guarded Sample.E {[digest_of Sample.E [xff; xd8; xff]]} (Some Sample.part_image))
    as Hg by (exists [xff; xd8; xff]; split; [reflexivity|by apply elem_of_singleton]).
  split; [exact Hg|].
  destruct (render_data_guarded Sample.E Sample.cyclic 3 (Some Sample.part_image)
              {[digest_of Sample.E [xff; xd8; xff]]} initial_world Hg) as (Hi & Hd & _).
  split; [exact Hi|exact Hd].
Defined.

(** C2, as stated, fails for the directory variant: with the digest of the
    image in the guard set, [render_data] returns the name of the blob, not
    null, and the attribute that refers to the image is rewritten to it. *)
Lemma directory_render_data_seen_not_null :
  digest_of Sample.E [xff; xd8; xff] ∈ ({[digest_of Sample.E [xff; xd8; xff]]} : gset string) ∧
  fst (MappedRelative.render_data Sample.E Sample.cyclic 3 (Some Sample.part_image)
         {[digest_of Sample.E [xff; xd8; xff]]} initial_world)
  = Ok (Some "blob=_9j_AAAAAAAAAAAAAAAAAAAAAAAAAAAAAAAAAAAAAAA=.jpg") ∧
  fst (MappedRelative.render_data Sample.E Sample.cyclic 3 (Some Sample.part_image)
         {[digest_of Sample.E [xff; xd8; xff]]} initial_world)
  ≠ Ok None ∧
  fst (Mapped.rewrite_attr Sample.E Sample.cyclic
         (MappedRelative.render_data Sample.E Sample.cyclic 3)
         (UStr "http://h/b.html") {[digest_of Sample.E [xff; xd8; xff]]}
         "img" [("alt", "x"); ("src", " cid:image1 ")] "src" initial_world)
  = Ok [("alt", "x"); ("src", "blob=_9j_AAAAAAAAAAAAAAAAAAAAAAAAAAAAAAAAAAAAAAA=.jpg")].
Proof.
  split; [by apply elem_of_singleton|].
  split; [by vm_compute|]. split; [by vm_compute|by vm_compute].
Qed.

(** ** Resolution of a reference *)

Lemma urljoin_str_args (E : Externals) (base url : string) (w : world) :
  urljoin E (UStr base) (UStr url) w = (Ok (UStr (urljoin_s E base url)), w).
Proof.
  unfold urljoin, urljoin_s, url_truthy.
  repeat case_bool_decide; simpl; reflexivity.
Qed.

Lemma urljoin_tag_base (E : Externals) (t : node) (url : string) (w : world) :
  url ≠ EmptyString →
  urljoin E (UTag t) (UStr url) w = (Raise (TypeError "Cannot mix str and non-str arguments"), w).
Proof.
  intros Hne. unfold urljoin, url_truthy. simpl.
  by rewrite bool_decide_eq_false_2.
Qed.

Lemma urljoin_tag_url (E : Externals) (base : string) (t : node) (w : world) :
  base ≠ EmptyString →
  urljoin E (UStr base) (UTag t) w = (Raise (TypeError "Cannot mix str and non-str arguments"), w).
Proof.
  intros Hne. unfold urljoin, url_truthy. simpl.
  by rewrite bool_decide_eq_false_2.
Qed.

(** The two ways of a reference.  One whose scheme is [cid] is looked up in
    [by_id] under the path of the URL, whatever [by_loc] holds and whatever the
    base is; with a base that is a string, any other reference is looked up in
    [by_loc] under the value joined against the base.  This target is what
    [rewrite_attr], on the trimmed value of an attribute, hands to
    [render_data]. *)
Lemma resolve_precedence (E : Externals) (self : Mapped.t) (base href : string) (w : world) :
  Mapped.resolve E self (UStr base) href w = (Ok (target_of E self base href), w) ∧
  (scheme (urlsplit E href) = "cid" →
   ∀ (by_loc' : gmap string Part) (base' : url_arg),
     Mapped.resolve E (Mapped.Build by_loc' (Mapped.by_id self) (Mapped.starts self)) base' href w
     = (Ok (Mapped.by_id self !! path (urlsplit E href)), w)) ∧
  (scheme (urlsplit E href) ≠ "cid" →
   target_of E self base href = Mapped.by_loc self !! urljoin_s E base href) ∧
  ∀ (render_data : render_data_method) (seen : gset string) (name attr : string)
    (attrs : list (string * string)),
    strip (default EmptyString (attr_get attr attrs)) = href → href ≠ EmptyString →
    Mapped.rewrite_attr E self render_data (UStr base) seen name attrs attr w =
    (uri <- render_data (target_of E self base href) seen ;;
     match uri with
     | Some uri => ret (attr_set attr uri attrs)
     | None => ret attrs
     end)
      (snd (print (name +:+ "." +:+ attr +:+ "=" +:+ href +:+ "; "
                     +:+ bool_repr (bool_decide (is_Some (target_of E self base href)))) w)).
Proof.
  assert (Mapped.resolve E self (UStr base) href w = (Ok (target_of E self base href), w)) as Hres.
  { unfold Mapped.resolve, target_of. case_bool_decide; [done|].
    unfold bind. by rewrite urljoin_str_args. }
  split_and!.
  - exact Hres.
  - intros Hcid by_loc' base'. unfold Mapped.resolve. simpl.
    by rewrite bool_decide_eq_true_2.
  - intros Hcid. unfold target_of. by rewrite bool_decide_eq_false_2.
  - intros render_data seen name attr attrs Hstrip Hne. subst href.
    apply rewrite_attr_resolved; [done|]. by rewrite Hres.
Qed.

(** Both branches on the sample message: the image by its content-ID, the
    second page by its location. *)
Example resolve_precedence_sample :
  target_of Sample.E Sample.cyclic "http://h/b.html" "cid:image1" = Some Sample.part_image ∧
  target_of Sample.E Sample.cyclic "http://h/a.html" "b.html" = Some Sample.part_b ∧
  target_of Sample.E Sample.cyclic "http://h/a.html" "image1" = None.
Proof. by vm_compute. Qed.

(** ** The base of a document *)

Lemma find_first_tag (name : string) (n t : node) (l : list node) :
  find_first name n = t :: l → l = [] ∧ ∃ attrs contents, t = Tag name attrs contents.
Proof.
  revert n t l.
  fix IH 1. intros n t l. destruct n as [s|nm attrs contents]; simpl; [done|].
  case_bool_decide as Hnm.
  - intros [= <- <-]. subst nm. eauto.
  - induction contents as [|c contents IHc]; [done|].
    destruct (find_first name c) as [|t' l'] eqn:Hc.
    + exact IHc.
    + intros [= -> ->]. by apply (IH c).
Qed.

Lemma find_all_limit1_tag (name : string) (doc : list node) (t : node) (l : list node) :
  find_all_limit1 name doc = t :: l → l = [] ∧ ∃ attrs contents, t = Tag name attrs contents.
Proof.
  induction doc as [|c doc IH]; simpl; [done|].
  destruct (find_first name c) as [|t' l'] eqn:Hc; [exact IH|].
  intros [= -> ->]. by apply (find_first_tag name c).
Qed.

(** Without a [<base>] element the base is the declared content-base joined
    against the content-location, which is the location itself when no
    content-base is declared. *)
Lemma effective_base_no_element (E : Externals) (self : Mapped.t)
    (part : Part) (doc : list node) (w : world) :
  find_all_limit1 "base" doc = [] →
  Mapped.effective_base E part doc w =
  (Ok (UStr (urljoin_s E (strip (default EmptyString (Content_Location part)))
                         (default EmptyString (Content_Base part)))), w).
Proof.
  intros Hnone. unfold Mapped.effective_base. rewrite Hnone. simpl.
  unfold bind. by rewrite urljoin_str_args.
Qed.

(** With a [<base>] element and a content-location, the element itself, not
    its target, reaches [urljoin], which refuses it. *)
Lemma effective_base_element (E : Externals) (part : Part) (doc : list node) (w : world) :
  find_all_limit1 "base" doc ≠ [] →
  strip (default EmptyString (Content_Location part)) ≠ EmptyString →
  Mapped.effective_base E part doc w =
  (Raise (TypeError "Cannot mix str and non-str arguments"), w).
Proof.
  intros Hbase Hloc. unfold Mapped.effective_base.
  destruct (find_all_limit1 "base" doc) as [|t l]; [done|]. simpl.
  unfold bind. by rewrite urljoin_tag_url.
Qed.

(** With a [<base>] element and no content-location, the base is the element,
    and the first reference by location is refused. *)
Lemma effective_base_element_no_location (E : Externals) (self : Mapped.t)
    (part : Part) (doc : list node) (t : node) (href : string) (w : world) :
  find_all_limit1 "base" doc = [t] →
  strip (default EmptyString (Content_Location part)) = EmptyString →
  Mapped.effective_base E part doc w = (Ok (UTag t), w) ∧
  (scheme (urlsplit E href) ≠ "cid" → href ≠ EmptyString →
   Mapped.resolve E self (UTag t) href w
   = (Raise (TypeError "Cannot mix str and non-str arguments"), w)).
Proof.
  intros Hbase Hloc. split.
  - unfold Mapped.effective_base. rewrite Hbase, Hloc. reflexivity.
  - intros Hcid Hne. unfold Mapped.resolve. rewrite bool_decide_eq_false_2 by done.
    unfold bind. by rewrite urljoin_tag_base.
Qed.

(** C4, as the code has it.  When the document has a [<base>] element and the
    part has no content-location, the base that [render] computes is the
    element itself, not a URL.  A reference whose scheme is not [cid] is then
    not looked up in [by_loc]: joining it against the element ends in
    [TypeError], in [resolve] and so in the turn of the loop that processes
    the attribute, before anything is printed or handed to [render_data]. *)
Theorem reference_with_base_element_raises (E : Externals) (self : Mapped.t)
    (render_data : render_data_method) (part : Part) (doc : list node) (seen : gset string)
    (name attr : string) (attrs : list (string * string)) (href : string) (w : world) :
  find_all_limit1 "base" doc ≠ [] →
  strip (default EmptyString (Content_Location part)) = EmptyString →
  strip (default EmptyString (attr_get attr attrs)) = href →
  href ≠ EmptyString →
  scheme (urlsplit E href) ≠ "cid" →
  ∃ tag,
    Mapped.effective_base E part doc w = (Ok (UTag tag), w) ∧
    Mapped.resolve E self (UTag tag) href w
    = (Raise (TypeError "Cannot mix str and non-str arguments"), w) ∧
    Mapped.rewrite_attr E self render_data (UTag tag) seen name attrs attr w
    = (Raise (TypeError "Cannot mix str and non-str arguments"), w).
Proof.
  intros Hbase Hloc Hhref Hne Hcid.
  destruct (find_all_limit1 "base" doc) as [|tag l] eqn:Hdoc; [done|].
  destruct (find_all_limit1_tag "base" doc tag l Hdoc) as [-> _].
  destruct (effective_base_element_no_location E self part doc tag href w Hdoc Hloc)
    as [Hbase' Hres].
  exists tag. split; [exact Hbase'|]. split; [by apply Hres|].
  unfold Mapped.rewrite_attr. rewrite Hhref.
  rewrite (bool_decide_eq_false_2 (href = EmptyString)) by done.
  unfold bind at 1. by rewrite Hres.
Qed.

Lemma reference_with_base_element_raises_witness :
  find_all_limit1 "base" (BeautifulSoup Sample.E (Bytes [x04])) ≠ [] ∧
  strip (default EmptyString
           (Content_Location (Sample.mk_part "text/html" [x04] None None))) = EmptyString ∧
  strip (default EmptyString (attr_get "src" [("alt", "x"); ("src", "pic.png")])) = "pic.png" ∧
  scheme (urlsplit Sample.E "pic.png") ≠ "cid" ∧
  (∃ tag,
     Mapped.effective_base Sample.E (Sample.mk_part "text/html" [x04] None None)
       (BeautifulSoup Sample.E (Bytes [x04])) initial_world = (Ok (UTag tag), initial_world) ∧
     Mapped.rewrite_attr Sample.E Sample.cyclic
       (MappedRelative.render_data Sample.E Sample.cyclic 2) (UTag tag) ∅
       "img" [("alt", "x"); ("src", "pic.png")] "src" initial_world
     = (Raise (TypeError "Cannot mix str and non-str arguments"), initial_world)) ∧
  fst (Mapped.render Sample.E Sample.cyclic
         (MappedRelative.render_data Sample.E Sample.cyclic 2)
         (Raw (Sample.mk_part "text/html" [x04] None None)) ∅ initial_world)
  = Raise (TypeError "Cannot mix str and non-str arguments").
Proof.
  split; [by vm_compute|]. split; [by vm_compute|]. split; [by vm_compute|].
  split; [by vm_compute|]. split; [|by vm_compute].
  destruct (reference_with_base_element_raises Sample.E Sample.cyclic
              (MappedRelative.render_data Sample.E Sample.cyclic 2)
              (Sample.mk_part "text/html" [x04] None None)
              (BeautifulSoup Sample.E (Bytes [x04])) ∅
              "img" "src" [("alt", "x"); ("src", "pic.png")] "pic.png" initial_world)
    as (tag & Hbase & _ & Hrewrite);
    [by vm_compute | by vm_compute | by vm_compute | by vm_compute | by vm_compute|].
  exists tag. split; [exact Hbase|exact Hrewrite].
Defined.

(** C5, as the code has it.  Rendering an HTML part that has a
    content-location and whose document has a [<base>] element ends in
    [TypeError]: the element itself, not its target, is joined against the
    content-location, so no base URL comes out of it. *)
Theorem render_with_base_element_raises (E : Externals) (self : Mapped.t)
    (render_data : render_data_method) (part : Part) (b : bytes) (seen : gset string)
    (w : world) :
  get_payload part = Bytes b →
  PartHelper.effective_content_type E part = "text/html" →
  find_all_limit1 "base" (BeautifulSoup E (Bytes b)) ≠ [] →
  strip (default EmptyString (Content_Location part)) ≠ EmptyString →
  fst (Mapped.render E self render_data (Raw part) seen w)
  = Raise (TypeError "Cannot mix str and non-str arguments").
Proof.
  intros Hb Hct Hbase Hloc. unfold Mapped.render. unfold bind at 1.
  destruct (init_bytes E part b w Hb) as (w' & -> & _). simpl.
  rewrite Hct. rewrite bool_decide_eq_true_2 by done.
  unfold bind. simpl. by rewrite effective_base_element.
Qed.

Lemma render_with_base_element_raises_witness :
  get_payload Sample.part_based = Bytes [x04] ∧
  PartHelper.effective_content_type Sample.E Sample.part_based = "text/html" ∧
  find_all_limit1 "base" (BeautifulSoup Sample.E (Bytes [x04])) ≠ [] ∧
  strip (default EmptyString (Content_Location Sample.part_based)) ≠ EmptyString ∧
  fst (Mapped.render Sample.E Sample.cyclic
         (MappedRelative.render_data Sample.E Sample.cyclic 2)
         (Raw Sample.part_based) ∅ initial_world)
  = Raise (TypeError "Cannot mix str and non-str arguments").
Proof.
  split; [reflexivity|]. split; [by vm_compute|]. split; [by vm_compute|].
  split; [by vm_compute|].
  apply (render_with_base_element_raises Sample.E Sample.cyclic
           (MappedRelative.render_data Sample.E Sample.cyclic 2)
           Sample.part_based [x04] ∅ initial_world);
    [reflexivity | by vm_compute | by vm_compute | by vm_compute].
Defined.

(** ** Rendering a part that is not HTML *)

Lemma MappedInline_render_unfold (E : Externals) (self : Mapped.t) (fuel : nat) :
  MappedInline.render E self fuel =
  Mapped.render E self
    (InlineData.render_data E
       (match fuel with O => fun _ _ => diverge | S fuel' => MappedInline.render E self fuel' end)).
Proof. by destruct fuel. Qed.

Lemma MappedRelative_render_unfold (E : Externals) (self : Mapped.t) (fuel : nat) :
  MappedRelative.render E self fuel =
  Mapped.render E self
    (DataDirectory.render_data E
       (match fuel with O => fun _ _ => diverge | S fuel' => MappedRelative.render E self fuel' end)).
Proof. by destruct fuel. Qed.

Lemma wrap_content_type (E : Externals) (arg : render_arg) (w : world) (h : PartHelper.t)
    (w' : world) :
  wrap E arg w = (Ok h, w') → PartHelper.content_type h = arg_content_type E arg.
Proof.
  destruct arg as [h0|p]; simpl.
  - by intros [= -> _].
  - unfold PartHelper.init, bind.
    destruct (find_extension E _ w) as [[ext|e|] w1]; [|done..].
    destruct (get_payload p); simpl; [|done..]. by intros [= <- _].
Qed.

Lemma render_not_html (E : Externals) (self : Mapped.t) (render_data : render_data_method)
    (arg : render_arg) (seen : gset string) (w : world) :
  arg_content_type E arg ≠ "text/html" →
  Mapped.render E self render_data arg seen w = (h <- wrap E arg ;; ret (render_plain E h)) w.
Proof.
  intros Hct. unfold Mapped.render, bind. fold (wrap E arg).
  destruct (wrap E arg w) as [[h|e|] w'] eqn:Hw; [|done..].
  rewrite (wrap_content_type E arg w h w' Hw).
  rewrite bool_decide_eq_false_2 by done.
  unfold render_plain. rewrite (wrap_content_type E arg w h w' Hw).
  by destruct (PartHelper.payload h).
Qed.

(** C9. A part whose effective content type is not exactly ["text/html"] is
    rendered without parsing markup and without resolving or rewriting any
    reference: the result is that of wrapping the part and returning its
    payload (encoded when it is textual) with its content type, whatever the
    index, the storage variant and the guard set are. *)
Theorem render_only_text_html_is_markup (E : Externals) (self : Mapped.t)
    (render_data : render_data_method) (arg : render_arg) (seen : gset string) (w : world) :
  arg_content_type E arg ≠ "text/html" →
  Mapped.render E self render_data arg seen w = (h <- wrap E arg ;; ret (render_plain E h)) w.
Proof. apply render_not_html. Qed.

(** C8. For a part whose effective content type is not exactly ["text/html"],
    [render] gives the same result and leaves the same world under any two
    guard sets, in both storage variants. *)
Theorem render_not_html_ignores_seen (E : Externals) (self : Mapped.t) (fuel : nat)
    (arg : render_arg) (seen1 seen2 : gset string) (w : world) :
  arg_content_type E arg ≠ "text/html" →
  MappedInline.render E self fuel arg seen1 w = MappedInline.render E self fuel arg seen2 w ∧
  MappedRelative.render E self fuel arg seen1 w = MappedRelative.render E self fuel arg seen2 w.
Proof.
  intros Hct. rewrite MappedInline_render_unfold, MappedRelative_render_unfold.
  by rewrite !render_not_html.
Qed.

(** The content type [PartHelper] settles on is the declared one, unless that
    is absent or names a stream of octets and the sniffer has an answer. *)
Lemma effective_content_type_declared (E : Externals) (part : Part) (ct : string) :
  get_content_type part = Some ct → ct ≠ EmptyString → contains "octet-stream" ct = false →
  PartHelper.effective_content_type E part = ct.
Proof.
  intros Hct Hne Hoct. unfold PartHelper.effective_content_type. rewrite Hct. simpl.
  rewrite bool_decide_eq_false_2 by done. simpl. rewrite Hoct. simpl.
  by rewrite bool_decide_eq_false_2.
Qed.

Lemma effective_content_type_not_sniffed (E : Externals) (part : Part) :
  truthy (PartHelper.sniff E (get_payload part)) = false →
  PartHelper.effective_content_type E part = default EmptyString (get_content_type part).
Proof.
  intros Hs. unfold PartHelper.effective_content_type. rewrite Hs.
  destruct (get_content_type part) as [ct|]; simpl; [|done].
  case_bool_decide; subst; simpl; [done|].
  destruct (contains _ _); simpl; by rewrite bool_decide_eq_false_2.
Qed.

Lemma effective_content_type_sniffed (E : Externals) (part : Part) (ct : string) :
  truthy (get_content_type part) = false
  ∨ contains "octet-stream" (default EmptyString (get_content_type part)) = true →
  PartHelper.sniff E (get_payload part) = Some ct → ct ≠ EmptyString →
  PartHelper.effective_content_type E part = ct.
Proof.
  intros Hd Hs Hne. unfold PartHelper.effective_content_type. rewrite Hs.
  assert (negb (truthy (get_content_type part))
          || contains "octet-stream" (default EmptyString (get_content_type part)) = true) as ->.
  { destruct Hd as [-> | ->]; [done|]. by rewrite orb_true_r. }
  simpl. rewrite !(bool_decide_eq_false_2 (ct = EmptyString)) by done. simpl.
  by rewrite bool_decide_eq_false_2.
Qed.

(** C6, as the code has it.  For a part whose payload is a byte sequence and
    whose effective content type is not ["text/html"], [render] returns the
    payload unchanged and the effective content type.  That is the declared
    type when one is declared that does not name a stream of octets, and
    whenever the sniffer has no answer; it is the sniffed type when the
    declared one is absent or names a stream of octets and the sniffer
    answers. *)
Theorem render_non_html_bytes (E : Externals) (self : Mapped.t)
    (render_data : render_data_method) (part : Part) (b : bytes) (seen : gset string)
    (w : world) :
  get_payload part = Bytes b →
  PartHelper.effective_content_type E part ≠ "text/html" →
  fst (Mapped.render E self render_data (Raw part) seen w)
  = Ok (Bytes b, PartHelper.effective_content_type E part) ∧
  (∀ ct, get_content_type part = Some ct → ct ≠ EmptyString →
         contains "octet-stream" ct = false →
         PartHelper.effective_content_type E part = ct) ∧
  (truthy (PartHelper.sniff E (get_payload part)) = false →
   PartHelper.effective_content_type E part = default EmptyString (get_content_type part)) ∧
  (∀ ct, truthy (get_content_type part) = false
         ∨ contains "octet-stream" (default EmptyString (get_content_type part)) = true →
         PartHelper.sniff E (get_payload part) = Some ct → ct ≠ EmptyString →
         PartHelper.effective_content_type E part = ct).
Proof.
  intros Hb Hct. split_and!.
  - rewrite render_not_html by done. simpl. unfold bind.
    destruct (init_bytes E part b w Hb) as (w' & -> & _). reflexivity.
  - apply effective_content_type_declared.
  - apply effective_content_type_not_sniffed.
  - apply effective_content_type_sniffed.
Qed.

Lemma render_only_text_html_is_markup_witness :
  arg_content_type Sample.E (Raw Sample.part_upper) ≠ "text/html" ∧
  Mapped.render Sample.E Sample.selfish (MappedRelative.render_data Sample.E Sample.selfish 2)
    (Raw Sample.part_upper) ∅ initial_world
  = (h <- wrap Sample.E (Raw Sample.part_upper) ;; ret (render_plain Sample.E h)) initial_world.
Proof.
  split; [by vm_compute|].
  apply (render_only_text_html_is_markup Sample.E Sample.selfish
           (MappedRelative.render_data Sample.E Sample.selfish 2)
           (Raw Sample.part_upper) ∅ initial_world).
  by vm_compute.
Defined.

(** The two content types the claim names: the payload, which as
    ["text/html"] would be a page with a link to rewrite, comes back as it is. *)
Example render_html_family_untouched :
  fst (MappedRelative.render Sample.E Sample.selfish 2 (Raw Sample.part_xhtml) ∅ initial_world)
  = Ok (Bytes [x01], "application/xhtml+xml") ∧
  fst (MappedRelative.render Sample.E Sample.selfish 2 (Raw Sample.part_upper) ∅ initial_world)
  = Ok (Bytes [x01], "Text/HTML") ∧
  fst (MappedInline.render Sample.E Sample.selfish 2 (Raw Sample.part_xhtml) ∅ initial_world)
  = Ok (Bytes [x01], "application/xhtml+xml") ∧
  fst (MappedInline.render Sample.E Sample.selfish 2 (Raw Sample.part_upper) ∅ initial_world)
  = Ok (Bytes [x01], "Text/HTML").
Proof. by vm_compute. Qed.

Lemma render_not_html_ignores_seen_witness :
  arg_content_type Sample.E (Raw Sample.part_image) ≠ "text/html" ∧
  MappedInline.render Sample.E Sample.cyclic 2 (Raw Sample.part_image) ∅ initial_world
  = MappedInline.render Sample.E Sample.cyclic 2 (Raw Sample.part_image)
      {[digest_of Sample.E [xff; xd8; xff]]} initial_world ∧
  MappedRelative.render Sample.E Sample.cyclic 2 (Raw Sample.part_image) ∅ initial_world
  = MappedRelative.render Sample.E Sample.cyclic 2 (Raw Sample.part_image)
      {[digest_of Sample.E [xff; xd8; xff]]} initial_world.
Proof.
  split; [by vm_compute|].
  apply (render_not_html_ignores_seen Sample.E Sample.cyclic 2 (Raw Sample.part_image)
           ∅ {[digest_of Sample.E [xff; xd8; xff]]} initial_world).
  by vm_compute.
Defined.

Lemma render_non_html_bytes_witness :
  get_payload Sample.part_image = Bytes [xff; xd8; xff] ∧
  PartHelper.effective_content_type Sample.E Sample.part_image ≠ "text/html" ∧
  fst (Mapped.render Sample.E Sample.cyclic (MappedRelative.render_data Sample.E Sample.cyclic 2)
         (Raw Sample.part_image) ∅ initial_world)
  = Ok (Bytes [xff; xd8; xff], PartHelper.effective_content_type Sample.E Sample.part_image).
Proof.
  split; [reflexivity|]. split; [by vm_compute|].
  apply (render_non_html_bytes Sample.E Sample.cyclic
           (MappedRelative.render_data Sample.E Sample.cyclic 2)
           Sample.part_image [xff; xd8; xff] ∅ initial_world); [reflexivity|by vm_compute].
Defined.

(** Without [filemagic] the declared content type comes back, also for a
    stream of octets. *)
Example render_declared_type_without_magic :
  fst (MappedRelative.render Sample.E_no_magic Sample.cyclic 2 (Raw Sample.part_png) ∅
         initial_world)
  = Ok (Bytes [x89; x50; x4e; x47], "application/octet-stream").
Proof. by vm_compute. Qed.

(** C6, as stated, fails where the sniffer answers: a part declared as
    ["application/octet-stream"] whose payload is a PNG is not HTML and has a
    payload of bytes, and [render] returns it under ["image/png"], not under
    its declared content type. *)
Lemma render_declared_type_not_kept :
  get_payload Sample.part_png = Bytes [x89; x50; x4e; x47] ∧
  get_content_type Sample.part_png = Some "application/octet-stream" ∧
  fst (Mapped.render Sample.E Sample.cyclic (MappedRelative.render_data Sample.E Sample.cyclic 2)
         (Raw Sample.part_png) ∅ initial_world)
  = Ok (Bytes [x89; x50; x4e; x47], "image/png") ∧
  fst (MappedInline.render Sample.E Sample.cyclic 2 (Raw Sample.part_png) ∅ initial_world)
  ≠ Ok (Bytes [x89; x50; x4e; x47], "application/octet-stream").
Proof.
  split; [reflexivity|]. split; [reflexivity|]. split; by vm_compute.
Qed.

(** ** Reasoning in [M] *)

Lemma node_induction (P : node → Prop) :
  (∀ s, P (NavigableString s)) →
  (∀ name attrs contents, Forall P contents → P (Tag name attrs contents)) →
  ∀ n, P n.
Proof.
  intros Hs Ht. fix IH 1. intros [s|name attrs contents]; [apply Hs|].
  apply Ht. induction contents as [|c contents IHc]; constructor; [apply IH|exact IHc].
Qed.

Lemma total_ret {A : Type} (a : A) : total (ret a).
Proof. by intros w. Qed.

Lemma total_raise {A : Type} (e : exn) : total (raise (A:=A) e).
Proof. by intros w. Qed.

Section total.
Context {A B : Type}.

Lemma total_bind (m : M A) (k : A → M B) :
  total m → (∀ a, total (k a)) → total (bind m k).
Proof.
  intros Hm Hk w. unfold bind. specialize (Hm w).
  destruct (m w) as [[a|e|] w']; simpl in *; [apply Hk|done..].
Qed.

Lemma total_bind_returns (P : A → Prop) (m : M A) (k : A → M B) :
  total m → returns P m → (∀ a, P a → total (k a)) → total (bind m k).
Proof.
  intros Hm HP Hk w. unfold bind. specialize (Hm w). specialize (HP w).
  destruct (m w) as [[a|e|] w']; simpl in *; [|done..].
  apply Hk. by eapply HP.
Qed.

Lemma total_foldM (f : B → A → M B) (acc : B) (l : list A) :
  (∀ acc x, total (f acc x)) → total (foldM f acc l).
Proof.
  intros Hf. revert acc. induction l as [|x l IH]; intros acc; simpl.
  - apply total_ret.
  - intros w. unfold bind. specialize (Hf acc x w).
    destruct (f acc x w) as [[acc'|e|] w']; simpl in *; [apply IH|done..].
Qed.
End total.

Lemma total_mapM {A B : Type} (f : A → M B) (l : list A) :
  Forall (λ x, total (f x)) l → total (mapM f l).
Proof.
  induction 1 as [|x l Hx Hl IH]; simpl.
  - apply total_ret.
  - apply total_bind; [exact Hx|]. intros y.
    apply total_bind; [exact IH|]. intros ys. apply total_ret.
Qed.

Lemma total_visit_node (visit : string → list (string * string) → M (list (string * string)))
    (n : node) :
  (∀ name attrs, total (visit name attrs)) → total (visit_node visit n).
Proof.
  intros Hv. induction n as [s|name attrs contents IH] using node_induction; simpl.
  - apply total_ret.
  - apply total_bind; [apply Hv|]. intros attrs'.
    apply total_bind; [|intros; apply total_ret].
    induction IH as [|c contents Hc _ IHc].
    + apply total_ret.
    + apply total_bind; [exact Hc|]. intros c'.
      apply total_bind; [exact IHc|]. intros; apply total_ret.
Qed.

Lemma total_visit_descendants
    (visit : string → list (string * string) → M (list (string * string))) (doc : list node) :
  (∀ name attrs, total (visit name attrs)) → total (visit_descendants visit doc).
Proof.
  intros Hv. apply total_mapM, Forall_forall. intros n _. by apply total_visit_node.
Qed.

Lemma total_find_extension (E : Externals) (m : string) : total (find_extension E m).
Proof. intros w. destruct (find_extension_ok E m w) as (ext & w' & -> & _). done. Qed.

Lemma total_init (E : Externals) (part : Part) : total (PartHelper.init E part).
Proof.
  apply total_bind; [apply total_find_extension|]. intros ext.
  apply total_bind; [|intros; apply total_ret].
  destruct (get_payload part); [apply total_ret|apply total_raise..].
Qed.

Lemma total_urljoin (E : Externals) (base url : url_arg) : total (urljoin E base url).
Proof.
  intros w. unfold urljoin.
  destruct (url_truthy base), (url_truthy url); simpl; try done. by destruct base, url.
Qed.

Lemma total_print (line : string) : total (print line).
Proof. by intros w. Qed.

Lemma total_write_binary (path : string) (binary : payload_value) :
  total (write_binary path binary).
Proof. intros w. by destruct binary. Qed.

Lemma lookup_targets_by_loc (self : Mapped.t) (k : string) (part : Part) :
  Mapped.by_loc self !! k = Some part → part ∈ targets self.
Proof.
  intros Hk. unfold targets. apply elem_of_app. left.
  apply list_elem_of_fmap. exists (k, part). split; [done|]. by apply elem_of_map_to_list.
Qed.

Lemma lookup_targets_by_id (self : Mapped.t) (k : string) (part : Part) :
  Mapped.by_id self !! k = Some part → part ∈ targets self.
Proof.
  intros Hk. unfold targets. apply elem_of_app. right.
  apply list_elem_of_fmap. exists (k, part). split; [done|]. by apply elem_of_map_to_list.
Qed.

Lemma total_resolve (E : Externals) (self : Mapped.t) (base : url_arg) (href : string) :
  total (Mapped.resolve E self base href).
Proof.
  unfold Mapped.resolve. case_bool_decide; [apply total_ret|].
  apply total_bind; [apply total_urljoin|]. intros; apply total_ret.
Qed.

Lemma resolve_in_index (E : Externals) (self : Mapped.t) (base : url_arg) (href : string) :
  returns (in_index self) (Mapped.resolve E self base href).
Proof.
  intros w mref w'. unfold Mapped.resolve. case_bool_decide.
  - intros [= <- _] part Hp. by eapply lookup_targets_by_id.
  - unfold bind. destruct (urljoin E base (UStr href) w) as [[key|e|] w1]; [|done..].
    intros [= <- _] part Hp. destruct key as [k|t]; [|done]. by eapply lookup_targets_by_loc.
Qed.

(** [render] never runs out of fuel when [render_data] does not, on the
    references that stay within the index. *)
Lemma total_render (E : Externals) (self : Mapped.t) (render_data : render_data_method)
    (arg : render_arg) (seen : gset string) :
  (∀ mref, in_index self mref → total (render_data mref seen)) →
  total (Mapped.render E self render_data arg seen).
Proof.
  intros Hrd. unfold Mapped.render.
  apply total_bind; [destruct arg; [apply total_ret|apply total_init]|]. intros h.
  case_bool_decide; [|destruct (PartHelper.payload h); apply total_ret].
  apply total_bind.
  { unfold Mapped.parse_markup. destruct (PartHelper.payload h);
      [apply total_ret..|apply total_raise]. }
  intros doc. apply total_bind.
  { unfold Mapped.effective_base. apply total_bind.
    - apply total_mapM, Forall_forall. intros; apply total_urljoin.
    - intros [|base bases]; [apply total_raise|apply total_ret]. }
  intros base. apply total_bind; [|intros; apply total_ret].
  apply total_visit_descendants. intros name attrs.
  unfold Mapped.rewrite_tag. apply total_foldM. clear attrs. intros attrs attr.
  unfold Mapped.rewrite_attr. case_bool_decide; [apply total_ret|].
  eapply total_bind_returns; [apply total_resolve|apply resolve_in_index|].
  intros mref Hin. apply total_bind; [apply total_print|]. intros _.
  apply total_bind; [by apply Hrd|]. intros [uri|]; apply total_ret.
Qed.

(** The inline [render_data] never runs out of fuel: it never reaches [render]. *)
Lemma total_inline_render_data (E : Externals) (render : render_method)
    (mref : option Part) (seen : gset string) :
  total (InlineData.render_data E render mref seen).
Proof.
  destruct mref as [part|]; simpl; [|apply total_ret].
  apply total_bind; [apply total_init|]. intros h.
  case_bool_decide; [apply total_ret|].
  intros w. by unfold bind, InlineData.unbound_name, raise.
Qed.

Lemma init_digest (E : Externals) (part : Part) (w : world) (h : PartHelper.t) (w' : world) :
  PartHelper.init E part w = (Ok h, w') →
  ∃ b, get_payload part = Bytes b ∧ PartHelper.digest h = digest_of E b ∧
       PartHelper.payload h = Bytes b ∧
       PartHelper.extension h = extension_in E w (PartHelper.effective_content_type E part) ∧
       same_files w w'.
Proof.
  intros Hinit. destruct (get_payload part) as [b| |] eqn:Hb.
  - destruct (init_bytes E part b w Hb) as (w1 & Hrun & _ & Hsame).
    rewrite Hrun in Hinit. inversion Hinit; subst. by exists b.
  - destruct (init_not_bytes E part w) as (msg & w1 & Hrun & _); [by rewrite Hb|congruence].
  - destruct (init_not_bytes E part w) as (msg & w1 & Hrun & _); [by rewrite Hb|congruence].
Qed.

Lemma fuel_bound_extend (E : Externals) (self : Mapped.t) (seen : gset string) (d : string) :
  d ∈ index_digests E self → d ∉ seen →
  fuel_bound E self (seen ∪ {[d]}) < fuel_bound E self seen.
Proof.
  intros Hd Hfresh. unfold fuel_bound. apply subset_size. split.
  - intros x. rewrite !elem_of_difference, elem_of_union. tauto.
  - intros Hsub. specialize (Hsub d).
    rewrite !elem_of_difference, elem_of_union, elem_of_singleton in Hsub. tauto.
Qed.

Lemma target_digest_in_index (E : Externals) (self : Mapped.t) (part : Part) (b : bytes) :
  part ∈ targets self → get_payload part = Bytes b → digest_of E b ∈ index_digests E self.
Proof.
  intros Hin Hb. unfold index_digests. apply elem_of_list_to_set.
  apply list_elem_of_omap. exists part. split; [done|]. unfold part_digest. by rewrite Hb.
Qed.

(** The directory [render_data] never runs out of fuel on a reference within
    the index, when [render] does not under the guard set extended by a digest
    of the index. *)
Lemma total_directory_render_data (E : Externals) (self : Mapped.t) (render : render_method)
    (mref : option Part) (seen : gset string) :
  in_index self mref →
  (∀ h d, d ∈ index_digests E self → d ∉ seen → total (render (Helper h) (seen ∪ {[d]}))) →
  total (DataDirectory.render_data E render mref seen).
Proof.
  intros Hin Hr. destruct mref as [part|]; simpl; [|apply total_ret].
  eapply (total_bind_returns
            (λ h, ∃ b, get_payload part = Bytes b ∧ PartHelper.digest h = digest_of E b));
    [apply total_init| |].
  { intros w h w' Hinit. destruct (init_digest E part w h w' Hinit) as (b & ? & ? & _).
    eauto. }
  intros h (b & Hb & Hd). case_bool_decide as Hseen; [apply total_ret|].
  apply total_bind; [done|]. intros present.
  apply total_bind; [|intros; apply total_ret].
  destruct present; simpl; [apply total_ret|].
  apply total_bind; [|intros; apply total_write_binary].
  apply Hr; [|done]. rewrite Hd. eapply target_digest_in_index; [|done]. by apply Hin.
Qed.

Lemma total_MappedRelative_render (E : Externals) (self : Mapped.t) (fuel : nat) :
  ∀ (arg : render_arg) (seen : gset string),
    fuel_bound E self seen ≤ fuel → total (MappedRelative.render E self fuel arg seen).
Proof.
  induction fuel as [|fuel IH]; intros arg seen Hfuel;
    rewrite MappedRelative_render_unfold; apply total_render; intros mref Hin;
    apply (total_directory_render_data E self); try done; intros h d Hd Hfresh;
    pose proof (fuel_bound_extend E self seen d Hd Hfresh).
  - lia.
  - apply IH. lia.
Qed.

Lemma total_MappedInline_render (E : Externals) (self : Mapped.t) (fuel : nat)
    (arg : render_arg) (seen : gset string) :
  total (MappedInline.render E self fuel arg seen).
Proof.
  rewrite MappedInline_render_unfold. apply total_render. intros mref _.
  apply total_inline_render_data.
Qed.

(** ** More fuel than needed changes nothing *)

Lemma agree_refl {A} (m : M A) : agree m m.
Proof. by intros w. Qed.

Lemma agree_bind {A B} (m1 m2 : M A) (k1 k2 : A → M B) :
  agree m1 m2 → (∀ a, agree (k1 a) (k2 a)) → agree (bind m1 k1) (bind m2 k2).
Proof.
  intros Hm Hk w. unfold bind. rewrite Hm.
  destruct (m2 w) as [[a|e|] w']; [apply Hk|done..].
Qed.

Lemma agree_bind_returns {A B} (P : A → Prop) (m : M A) (k1 k2 : A → M B) :
  returns P m → (∀ a, P a → agree (k1 a) (k2 a)) → agree (bind m k1) (bind m k2).
Proof.
  intros HP Hk w. unfold bind. specialize (HP w).
  destruct (m w) as [[a|e|] w']; [|done..]. apply Hk. by eapply HP.
Qed.

Lemma agree_foldM {A B} (f1 f2 : B → A → M B) (acc : B) (l : list A) :
  (∀ acc x, agree (f1 acc x) (f2 acc x)) → agree (foldM f1 acc l) (foldM f2 acc l).
Proof.
  intros Hf. revert acc. induction l as [|x l IH]; intros acc; simpl.
  - apply agree_refl.
  - apply agree_bind; [apply Hf|apply IH].
Qed.

Lemma agree_mapM {A B} (f1 f2 : A → M B) (l : list A) :
  Forall (λ x, agree (f1 x) (f2 x)) l → agree (mapM f1 l) (mapM f2 l).
Proof.
  induction 1 as [|x l Hx Hl IH]; simpl.
  - apply agree_refl.
  - apply agree_bind; [exact Hx|]. intros y.
    apply agree_bind; [exact IH|]. intros ys. apply agree_refl.
Qed.

Lemma agree_visit_node
    (visit1 visit2 : string → list (string * string) → M (list (string * string))) (n : node) :
  (∀ name attrs, agree (visit1 name attrs) (visit2 name attrs)) →
  agree (visit_node visit1 n) (visit_node visit2 n).
Proof.
  intros Hv. induction n as [s|name attrs contents IH] using node_induction; simpl.
  - apply agree_refl.
  - apply agree_bind; [apply Hv|]. intros attrs'.
    apply agree_bind; [|intros; apply agree_refl].
    induction IH as [|c contents Hc _ IHc].
    + apply agree_refl.
    + apply agree_bind; [exact Hc|]. intros c'.
      apply agree_bind; [exact IHc|]. intros; apply agree_refl.
Qed.

(** [render] is the same under two [render_data] that agree on the references
    within the index. *)
Lemma agree_render (E : Externals) (self : Mapped.t) (rd1 rd2 : render_data_method)
    (arg : render_arg) (seen : gset string) :
  (∀ mref, in_index self mref → agree (rd1 mref seen) (rd2 mref seen)) →
  agree (Mapped.render E self rd1 arg seen) (Mapped.render E self rd2 arg seen).
Proof.
  intros Hrd. unfold Mapped.render. apply agree_bind; [apply agree_refl|]. intros h.
  case_bool_decide; [|apply agree_refl].
  apply agree_bind; [apply agree_refl|]. intros doc.
  apply agree_bind; [apply agree_refl|]. intros base.
  apply agree_bind; [|intros; apply agree_refl].
  apply agree_mapM, Forall_forall. intros n _. apply agree_visit_node. intros name attrs.
  unfold Mapped.rewrite_tag. apply agree_foldM. clear attrs. intros attrs attr.
  unfold Mapped.rewrite_attr. case_bool_decide; [apply agree_refl|].
  eapply agree_bind_returns; [apply resolve_in_index|]. intros mref Hin.
  apply agree_bind; [apply agree_refl|]. intros _.
  apply agree_bind; [by apply Hrd|]. intros; apply agree_refl.
Qed.

Lemma agree_directory_render_data (E : Externals) (self : Mapped.t) (r1 r2 : render_method)
    (mref : option Part) (seen : gset string) :
  in_index self mref →
  (∀ h d, d ∈ index_digests E self → d ∉ seen →
          agree (r1 (Helper h) (seen ∪ {[d]})) (r2 (Helper h) (seen ∪ {[d]}))) →
  agree (DataDirectory.render_data E r1 mref seen) (DataDirectory.render_data E r2 mref seen).
Proof.
  intros Hin Hr. destruct mref as [part|]; simpl; [|apply agree_refl].
  eapply (agree_bind_returns
            (λ h, ∃ b, get_payload part = Bytes b ∧ PartHelper.digest h = digest_of E b)).
  { intros w h w' Hinit. destruct (init_digest E part w h w' Hinit) as (b & ? & ? & _).
    eauto. }
  intros h (b & Hb & Hd). case_bool_decide as Hseen; [apply agree_refl|].
  apply agree_bind; [apply agree_refl|]. intros present.
  apply agree_bind; [|intros; apply agree_refl].
  destruct present; simpl; [apply agree_refl|].
  apply agree_bind; [|intros; apply agree_refl].
  apply Hr; [|done]. rewrite Hd. eapply target_digest_in_index; [|done]. by apply Hin.
Qed.

Lemma MappedRelative_render_O (E : Externals) (self : Mapped.t) :
  MappedRelative.render E self 0 =
  Mapped.render E self (DataDirectory.render_data E (fun _ _ => diverge)).
Proof. reflexivity. Qed.

Lemma MappedRelative_render_S (E : Externals) (self : Mapped.t) (fuel : nat) :
  MappedRelative.render E self (S fuel) =
  Mapped.render E self (DataDirectory.render_data E (MappedRelative.render E self fuel)).
Proof. reflexivity. Qed.

Lemma agree_MappedRelative_render (E : Externals) (self : Mapped.t) (fuel1 : nat) :
  ∀ (fuel2 : nat) (arg : render_arg) (seen : gset string),
    fuel_bound E self seen ≤ fuel1 → fuel_bound E self seen ≤ fuel2 →
    agree (MappedRelative.render E self fuel1 arg seen)
          (MappedRelative.render E self fuel2 arg seen).
Proof.
  induction fuel1 as [|fuel1 IH]; intros [|fuel2] arg seen Hfuel1 Hfuel2;
    rewrite ?MappedRelative_render_S, ?MappedRelative_render_O;
    apply agree_render; intros mref Hin;
    apply (agree_directory_render_data E self); try done; intros h d Hd Hfresh;
    pose proof (fuel_bound_extend E self seen d Hd Hfresh); try lia.
  apply IH; lia.
Qed.

Lemma agree_MappedInline_render (E : Externals) (self : Mapped.t) (fuel1 fuel2 : nat)
    (arg : render_arg) (seen : gset string) :
  agree (MappedInline.render E self fuel1 arg seen) (MappedInline.render E self fuel2 arg seen).
Proof.
  rewrite (MappedInline_render_unfold E self fuel1), (MappedInline_render_unfold E self fuel2).
  apply agree_render. intros mref _.
  destruct mref as [part|]; simpl; [|apply agree_refl].
  apply agree_bind; [apply agree_refl|]. intros h.
  case_bool_decide; [apply agree_refl|]. by intros w.
Qed.

(** C3. Rendering terminates: given as many nested calls as the index has
    digests outside the guard set, [render] ends with a value or an exception,
    in both variants, whatever the references are, cycles and references of a
    part to itself included; a part whose digest is in the guard set is not
    entered again, and each nested call adds a digest of the index to it.
    More fuel than that gives the same run. *)
Theorem render_terminates (E : Externals) (self : Mapped.t) (fuel : nat)
    (arg : render_arg) (seen : gset string) (w : world) :
  fuel_bound E self seen ≤ fuel →
  (fst (MappedRelative.render E self fuel arg seen w) ≠ OutOfFuel ∧
   ∀ fuel', fuel ≤ fuel' →
     MappedRelative.render E self fuel' arg seen w = MappedRelative.render E self fuel arg seen w) ∧
  (fst (MappedInline.render E self fuel arg seen w) ≠ OutOfFuel ∧
   ∀ fuel', fuel ≤ fuel' →
     MappedInline.render E self fuel' arg seen w = MappedInline.render E self fuel arg seen w).
Proof.
  intros Hfuel. split_and!.
  - by apply total_MappedRelative_render.
  - intros fuel' Hle. apply agree_MappedRelative_render; lia.
  - apply total_MappedInline_render.
  - intros fuel' _. apply agree_MappedInline_render.
Qed.

Lemma render_terminates_witness :
  fuel_bound Sample.E Sample.selfish ∅ ≤ 1 ∧
  fst (MappedRelative.render Sample.E Sample.selfish 1 (Raw Sample.part_self) ∅ initial_world)
  ≠ OutOfFuel ∧
  fst (MappedInline.render Sample.E Sample.selfish 1 (Raw Sample.part_self) ∅ initial_world)
  ≠ OutOfFuel.
Proof.
  assert (fuel_bound Sample.E Sample.selfish ∅ ≤ 1) as Hfuel by (vm_compute; lia).
  split; [exact Hfuel|].
  destruct (render_terminates Sample.E Sample.selfish 1 (Raw Sample.part_self) ∅ initial_world
              Hfuel) as [[Hd _] [Hi _]].
  split; [exact Hd|exact Hi].
Defined.

(** A page that links to itself, and two pages that link to each other: the
    directory variant ends with the blobs written once each, the inline
    variant ends in its [NameError]. *)
Example render_cycles_sample :
  fuel_bound Sample.E Sample.cyclic ∅ = 3 ∧
  (let r := MappedRelative.render Sample.E Sample.selfish 1 (Raw Sample.part_self) ∅ initial_world in
   fst r = Ok (Bytes (list_byte_of_string
     "<html><head></head><body><a href='blob=AQAAAAAAAAAAAAAAAAAAAAAAAAAAAAAAAAAAAAAAAAA=.html'>link</a></body></html>"),
               "text/html;charset=utf8") ∧
   (writes (snd r)).*1 = ["blob=AQAAAAAAAAAAAAAAAAAAAAAAAAAAAAAAAAAAAAAAAAA=.html"]) ∧
  (let r := MappedRelative.render Sample.E Sample.cyclic 3 (Raw Sample.part_a) ∅ initial_world in
   fst r = Ok (Bytes (list_byte_of_string
     "<html><head></head><body><a href='blob=AwAAAAAAAAAAAAAAAAAAAAAAAAAAAAAAAAAAAAAAAAA=.html'>link</a></body></html>"),
               "text/html;charset=utf8") ∧
   (writes (snd r)).*1 = ["blob=AgAAAAAAAAAAAAAAAAAAAAAAAAAAAAAAAAAAAAAAAAA=.html";
                          "blob=_9j_AAAAAAAAAAAAAAAAAAAAAAAAAAAAAAAAAAAAAAA=.jpg";
                          "blob=AwAAAAAAAAAAAAAAAAAAAAAAAAAAAAAAAAAAAAAAAAA=.html"]) ∧
  fst (MappedInline.render Sample.E Sample.cyclic 3 (Raw Sample.part_a) ∅ initial_world)
  = Raise (NameError "ph").
Proof. by vm_compute. Qed.

(** ** Names of blobs *)

Lemma b64encode_length (alphabet : string) :
  ∀ s t : bytes, length s = length t →
    String.length (b64encode_with alphabet s) = String.length (b64encode_with alphabet t).
Proof.
  fix IH 1. intros s t Hlen.
  destruct s as [|x [|y [|z s]]], t as [|x' [|y' [|z' t]]]; try done.
  simpl. do 4 f_equal. apply IH. simpl in Hlen. lia.
Qed.

Lemma append_inj_length (a a' b b' : string) :
  String.length a = String.length a' → a +:+ b = a' +:+ b' → a = a' ∧ b = b'.
Proof.
  revert a'. induction a as [|c a IH]; intros [|c' a']; simpl; try done.
  intros [= Hlen] [= -> Happ]. destruct (IH a' Hlen Happ) as [-> ->]. done.
Qed.

Section blob_names.
Context (E : Externals).
Hypothesis sha256_length : ∀ b, length (sha256 E b) = 32.

Lemma digest_length (b b' : bytes) :
  String.length (digest_of E b) = String.length (digest_of E b').
Proof. apply b64encode_length. by rewrite !sha256_length. Qed.

(** Two blobs of the same name have the same digest and extension. *)
Lemma blob_path_inj (b b' : bytes) (ext ext' : string) :
  DataDirectory.blob_path (digest_of E b) ext = DataDirectory.blob_path (digest_of E b') ext' →
  digest_of E b = digest_of E b' ∧ ext = ext'.
Proof.
  unfold DataDirectory.blob_path. intros Heq.
  apply (append_inj_length "blob=" "blob=") in Heq as [_ Heq]; [|done].
  by apply append_inj_length in Heq; [|apply digest_length].
Qed.
End blob_names.

(** ** Writes of the directory variant *)

Lemma fresh_writes_refl (E : Externals) (seen : gset string) (w : world) :
  fresh_writes E seen w w.
Proof.
  exists []. split_and!.
  - by rewrite app_nil_r.
  - constructor.
  - intros p Hp. by apply elem_of_nil in Hp.
  - intros p. split; [by left|]. intros [?|Hp]; [done|]. by apply elem_of_nil in Hp.
Qed.

Lemma fresh_writes_same_files (E : Externals) (seen : gset string) (w w' : world) :
  same_files w w' → fresh_writes E seen w w'.
Proof.
  intros [Hf Hw]. exists []. split_and!.
  - by rewrite app_nil_r.
  - constructor.
  - intros p Hp. by apply elem_of_nil in Hp.
  - intros p. rewrite Hf. split; [by left|]. intros [?|Hp]; [done|]. by apply elem_of_nil in Hp.
Qed.

Lemma fresh_writes_trans (E : Externals) (seen : gset string) (w1 w2 w3 : world) :
  fresh_writes E seen w1 w2 → fresh_writes E seen w2 w3 → fresh_writes E seen w1 w3.
Proof.
  intros (l1 & Hw1 & Hnd1 & Hp1 & Hf1) (l2 & Hw2 & Hnd2 & Hp2 & Hf2).
  exists (l1 ++ l2). split_and!.
  - by rewrite Hw2, Hw1, app_assoc.
  - rewrite fmap_app. apply NoDup_app. split_and!; [done| |done].
    intros p Hin1 Hin2. destruct (Hp2 p Hin2) as [Hnone _].
    assert (is_Some (files w2 !! p)) as [? ?] by (apply Hf1; by right). congruence.
  - intros p. rewrite fmap_app, elem_of_app. intros [Hin|Hin]; [by apply Hp1|].
    destruct (Hp2 p Hin) as [Hnone Hform]. split; [|done].
    destruct (files w1 !! p) eqn:Hw; [|done].
    assert (is_Some (files w2 !! p)) as [? ?] by (apply Hf1; left; eauto). congruence.
  - intros p. rewrite Hf2, Hf1, fmap_app, elem_of_app. tauto.
Qed.

Lemma fresh_writes_weaken (E : Externals) (seen seen' : gset string) (w w' : world) :
  seen ⊆ seen' → fresh_writes E seen' w w' → fresh_writes E seen w w'.
Proof.
  intros Hsub (l & Hw & Hnd & Hp & Hf). exists l. split_and!; try done.
  intros p Hin. destruct (Hp p Hin) as (Hnone & b & ext & -> & Hfresh).
  split; [done|]. exists b, ext. split; [done|]. intros Hs. apply Hfresh. by apply Hsub.
Qed.

Lemma fresh_writes_write (E : Externals) (seen : gset string) (w : world)
    (b : bytes) (ext : string) (binary : payload_value) :
  files w !! DataDirectory.blob_path (digest_of E b) ext = None →
  digest_of E b ∉ seen →
  fresh_writes E seen w (snd (write_binary (DataDirectory.blob_path (digest_of E b) ext) binary w)).
Proof.
  intros Hnone Hfresh. set (p := DataDirectory.blob_path (digest_of E b) ext) in *.
  assert (∀ data, fresh_writes E seen w (snd (write_file p data w))) as Hwrite.
  { intros data. exists [(p, data)]. simpl. split_and!.
    - done.
    - apply NoDup_singleton.
    - intros q Hq. apply list_elem_of_singleton in Hq as ->. split; [done|]. by exists b, ext.
    - intros q. rewrite list_elem_of_singleton. destruct (decide (p = q)) as [<-|Hne].
      + rewrite lookup_insert_eq. split; [by right|eauto].
      + rewrite lookup_insert_ne by done. split; [by left|]. intros [?|?]; [done|congruence]. }
  destruct binary as [data| |]; [apply Hwrite|..]; exact (Hwrite []).
Qed.

(** What [w] lacks under a guarded name it still lacks after fresh writes. *)
Lemma fresh_writes_absent (E : Externals) (seen : gset string) (w w' : world)
    (b : bytes) (ext : string) :
  (∀ b, length (sha256 E b) = 32) →
  fresh_writes E seen w w' → digest_of E b ∈ seen →
  files w !! DataDirectory.blob_path (digest_of E b) ext = None →
  files w' !! DataDirectory.blob_path (digest_of E b) ext = None.
Proof.
  intros Hlen (l & Hw & Hnd & Hp & Hf) Hseen Hnone.
  destruct (files w' !! _) eqn:Hw'; [|done]. exfalso.
  assert (is_Some (files w' !! DataDirectory.blob_path (digest_of E b) ext)) as Hsome by eauto.
  apply Hf in Hsome as [[? ?]|Hin]; [congruence|].
  destruct (Hp _ Hin) as (_ & b' & ext' & Heq & Hfresh).
  apply (blob_path_inj E Hlen) in Heq as [Heq _]. congruence.
Qed.

Section steps.
Context (R : world → world → Prop) `{!Reflexive R, !Transitive R}.

Lemma steps_ret {A} (a : A) : steps R (ret a).
Proof. intros w. simpl. reflexivity. Qed.

Lemma steps_raise {A} (e : exn) : steps R (raise (A:=A) e).
Proof. intros w. simpl. reflexivity. Qed.

Lemma steps_bind {A B} (m : M A) (k : A → M B) :
  steps R m → (∀ a, steps R (k a)) → steps R (bind m k).
Proof.
  intros Hm Hk w. unfold bind. specialize (Hm w).
  destruct (m w) as [[a|e|] w']; simpl in *; [|done..].
  etrans; [exact Hm|apply Hk].
Qed.

Lemma steps_bind_returns {A B} (P : A → Prop) (m : M A) (k : A → M B) :
  steps R m → returns P m → (∀ a, P a → steps R (k a)) → steps R (bind m k).
Proof.
  intros Hm HP Hk w. unfold bind. specialize (Hm w). specialize (HP w).
  destruct (m w) as [[a|e|] w']; simpl in *; [|done..].
  etrans; [exact Hm|]. apply Hk. by eapply HP.
Qed.

Lemma steps_foldM {A B} (f : B → A → M B) (acc : B) (l : list A) :
  (∀ acc x, steps R (f acc x)) → steps R (foldM f acc l).
Proof.
  intros Hf. revert acc. induction l as [|x l IH]; intros acc; simpl.
  - apply steps_ret.
  - apply steps_bind; [apply Hf|apply IH].
Qed.

Lemma steps_mapM {A B} (f : A → M B) (l : list A) :
  Forall (λ x, steps R (f x)) l → steps R (mapM f l).
Proof.
  induction 1 as [|x l Hx Hl IH]; simpl.
  - apply steps_ret.
  - apply steps_bind; [exact Hx|]. intros y.
    apply steps_bind; [exact IH|]. intros ys. apply steps_ret.
Qed.

Lemma steps_visit_node (visit : string → list (string * string) → M (list (string * string)))
    (n : node) :
  (∀ name attrs, steps R (visit name attrs)) → steps R (visit_node visit n).
Proof.
  intros Hv. induction n as [s|name attrs contents IH] using node_induction; simpl.
  - apply steps_ret.
  - apply steps_bind; [apply Hv|]. intros attrs'.
    apply steps_bind; [|intros; apply steps_ret].
    induction IH as [|c contents Hc _ IHc].
    + apply steps_ret.
    + apply steps_bind; [exact Hc|]. intros c'.
      apply steps_bind; [exact IHc|]. intros; apply steps_ret.
Qed.

(** An action that leaves the world as it is. *)
Lemma steps_pure {A} (m : M A) : (∀ w, snd (m w) = w) → steps R m.
Proof. intros Hm w. rewrite Hm. reflexivity. Qed.
End steps.

Lemma quiet_refl (w : world) : quiet w w.
Proof. split; [by split|]. unfold cache_grows. reflexivity. Qed.

Lemma init_quiet (E : Externals) (part : Part) (w : world) :
  quiet w (snd (PartHelper.init E part w)).
Proof.
  unfold PartHelper.init, bind.
  destruct (find_extension_run E (PartHelper.effective_content_type E part) w)
    as (w' & -> & Hsub & Hsame).
  by destruct (get_payload part).
Qed.

Lemma print_quiet (line : string) (w : world) : quiet w (snd (print line w)).
Proof. split; [by split|]. unfold cache_grows. reflexivity. Qed.

(** [render] takes the world along any preorder that holds of quiet stretches
    and along which its [render_data] takes the world. *)
Lemma steps_render (R : world → world → Prop) `{!Reflexive R, !Transitive R}
    (E : Externals) (self : Mapped.t) (render_data : render_data_method)
    (arg : render_arg) (seen : gset string) :
  (∀ w w', quiet w w' → R w w') →
  (∀ mref, steps R (render_data mref seen)) →
  steps R (Mapped.render E self render_data arg seen).
Proof.
  intros Hquiet Hrd. unfold Mapped.render. apply steps_bind; [apply _..| |].
  { destruct arg as [h|p]; [apply steps_ret; apply _|].
    intros w. apply Hquiet, init_quiet. }
  intros h. case_bool_decide;
    [|destruct (PartHelper.payload h); apply steps_ret; apply _].
  apply steps_bind; [apply _..| |].
  { apply steps_pure; [apply _|]. intros w. unfold Mapped.parse_markup.
    by destruct (PartHelper.payload h). }
  intros doc. apply steps_bind; [apply _..| |].
  { unfold Mapped.effective_base. apply steps_bind; [apply _..| |].
    - apply steps_mapM; [apply _..|]. apply Forall_forall. intros u _.
      apply steps_pure; [apply _|]. apply urljoin_world.
    - intros [|base bases]; [apply steps_raise|apply steps_ret]; apply _. }
  intros base. apply steps_bind; [apply _..| |intros; apply steps_ret; apply _].
  apply steps_mapM; [apply _..|]. apply Forall_forall. intros n _.
  apply steps_visit_node; [apply _..|]. intros name attrs.
  unfold Mapped.rewrite_tag. apply steps_foldM; [apply _..|]. clear attrs. intros attrs attr.
  unfold Mapped.rewrite_attr. case_bool_decide; [apply steps_ret; apply _|].
  apply steps_bind; [apply _..| |].
  { apply steps_pure; [apply _|]. apply resolve_world. }
  intros mref. apply steps_bind; [apply _..| |].
  { intros w. apply Hquiet, print_quiet. }
  intros _. apply steps_bind; [apply _..|apply Hrd|].
  intros [uri|]; apply steps_ret; apply _.
Qed.

#[local] Instance directory_step_reflexive (E : Externals) (seen : gset string) :
  Reflexive (directory_step E seen).
Proof. intros w. split; [apply fresh_writes_refl|apply quiet_refl]. Qed.

#[local] Instance directory_step_transitive (E : Externals) (seen : gset string) :
  Transitive (directory_step E seen).
Proof.
  intros w1 w2 w3 [Hf1 Hc1] [Hf2 Hc2]. split; [by eapply fresh_writes_trans|].
  unfold cache_grows in *. by etrans.
Qed.

Lemma directory_step_quiet (E : Externals) (seen : gset string) (w w' : world) :
  quiet w w' → directory_step E seen w w'.
Proof. intros [Hsame Hcache]. split; [by apply fresh_writes_same_files|done]. Qed.

Lemma directory_step_weaken (E : Externals) (seen seen' : gset string) (w w' : world) :
  seen ⊆ seen' → directory_step E seen' w w' → directory_step E seen w w'.
Proof. intros Hsub [Hf Hc]. split; [by eapply fresh_writes_weaken|done]. Qed.

Lemma write_binary_cache (path : string) (binary : payload_value) (w : world) :
  common_types (snd (write_binary path binary w)) = common_types w.
Proof. by destruct binary. Qed.

(** The directory [render_data] writes at most the blob of its part, after the
    nested [render], under a name that was free and that no nested write
    took. *)
Lemma steps_directory_render_data (E : Externals) (render : render_method)
    (mref : option Part) (seen : gset string) :
  (∀ b, length (sha256 E b) = 32) →
  (∀ h d, steps (directory_step E (seen ∪ {[d]})) (render (Helper h) (seen ∪ {[d]}))) →
  steps (directory_step E seen) (DataDirectory.render_data E render mref seen).
Proof.
  intros Hlen Hr w. destruct mref as [part|]; simpl; [|reflexivity].
  unfold bind at 1. pose proof (init_quiet E part w) as Hquiet.
  destruct (PartHelper.init E part w) as [[h|e|] w1] eqn:Hinit; simpl in Hquiet;
    [|by apply directory_step_quiet..].
  destruct (init_digest E part w h w1 Hinit) as (b & Hb & Hd & _ & _ & _).
  etrans; [by apply directory_step_quiet|]. rewrite Hd.
  set (p := DataDirectory.blob_path _ _).
  case_bool_decide as Hseen; [reflexivity|].
  unfold bind at 1. simpl. case_bool_decide as Hpresent; simpl; [reflexivity|].
  assert (files w1 !! p = None) as Hnone.
  { destruct (files w1 !! p) eqn:Hp; [|done]. destruct Hpresent. eauto. }
  unfold bind at 1. unfold bind at 1.
  specialize (Hr h (digest_of E b) w1).
  destruct (render (Helper h) (seen ∪ {[digest_of E b]}) w1) as [[r|e|] w2];
    simpl in Hr |- *; try (eapply directory_step_weaken; [|exact Hr]; set_solver).
  assert (directory_step E seen w2 (snd (write_binary p r.1 w2))) as Hwrite.
  { split; [|unfold cache_grows; by rewrite write_binary_cache].
    apply fresh_writes_write; [|done]. destruct Hr as [Hr _].
    eapply fresh_writes_absent; [done|exact Hr| |done]. set_solver. }
  etrans; [eapply directory_step_weaken; [|exact Hr]; set_solver|].
  by destruct (write_binary p r.1 w2) as [[[]|e|] w3].
Qed.

Lemma steps_MappedRelative_render (E : Externals) (self : Mapped.t) (fuel : nat) :
  (∀ b, length (sha256 E b) = 32) →
  ∀ (arg : render_arg) (seen : gset string),
    steps (directory_step E seen) (MappedRelative.render E self fuel arg seen).
Proof.
  intros Hlen. induction fuel as [|fuel IH]; intros arg seen;
    rewrite MappedRelative_render_unfold;
    (apply steps_render; [apply _..|apply directory_step_quiet|]); intros mref;
    apply steps_directory_render_data; try done.
  intros h d w. reflexivity.
Qed.

Lemma steps_MappedRelative_render_data (E : Externals) (self : Mapped.t) (fuel : nat)
    (mref : option Part) (seen : gset string) :
  (∀ b, length (sha256 E b) = 32) →
  steps (directory_step E seen) (MappedRelative.render_data E self fuel mref seen).
Proof.
  intros Hlen. apply steps_directory_render_data; [done|]. intros h d.
  by apply steps_MappedRelative_render.
Qed.

(** ** A blob that is there is not written again *)

Lemma extension_in_cached (E : Externals) (w w' : world) (mime_type : string) :
  quiet w (snd (find_extension E mime_type w)) →
  cache_grows (snd (find_extension E mime_type w)) w' →
  extension_in E w' mime_type = extension_in E w mime_type.
Proof.
  intros _ Hgrow. destruct (find_extension_ok E mime_type w) as (ext & w1 & Hrun & _ & Hin & _).
  destruct (find_extension_run E mime_type w) as (w2 & Hrun' & _).
  rewrite Hrun in Hrun'. inversion Hrun' as [[Hext Hw]]. rewrite Hrun in Hgrow. simpl in Hgrow.
  unfold extension_in at 1. by rewrite (lookup_weaken _ _ _ _ Hin Hgrow).
Qed.

Lemma blob_of_after_init (E : Externals) (part : Part) (w w' : world) :
  cache_grows (snd (PartHelper.init E part w)) w' → blob_of E w' part = blob_of E w part.
Proof.
  intros Hgrow. unfold blob_of. destruct (get_payload part) as [b| |] eqn:Hb; [|done..].
  f_equal. f_equal. apply extension_in_cached.
  - by destruct (find_extension_run E (PartHelper.effective_content_type E part) w)
      as (w1 & -> & Hsub & Hsame).
  - revert Hgrow. unfold PartHelper.init, bind.
    destruct (find_extension E _ w) as [[ext|e|] w1]; [|done..]. by rewrite Hb.
Qed.

(** With the digest in the guard set, or the blob in the directory,
    [render_data] answers the name of the blob and neither renders nor
    writes. *)
Lemma directory_render_data_reuse (E : Externals) (render : render_method)
    (part : Part) (b : bytes) (seen : gset string) (w : world) :
  get_payload part = Bytes b →
  digest_of E b ∈ seen ∨ (∃ path, blob_of E w part = Some path ∧ is_Some (files w !! path)) →
  ∃ w', DataDirectory.render_data E render (Some part) seen w = (Ok (blob_of E w part), w') ∧
        quiet w w'.
Proof.
  intros Hb Hcase. simpl. unfold bind at 1.
  destruct (init_bytes E part b w Hb) as (w1 & -> & Hsub & Hsame). simpl.
  unfold blob_of in *. rewrite Hb in *.
  assert (quiet w w1) as Hquiet by done.
  case_bool_decide as Hseen; [by exists w1|].
  destruct Hcase as [?|(path & [= <-] & Hfile)]; [done|].
  unfold bind, exists_path. simpl. destruct Hsame as [Hfiles _]. rewrite Hfiles.
  rewrite bool_decide_eq_true_2 by done. simpl. by exists w1.
Qed.

(** After [render_data] has answered for a part whose digest is not in the
    guard set, the blob is in the directory. *)
Lemma directory_render_data_written (E : Externals) (render : render_method)
    (part : Part) (b : bytes) (seen : gset string) (w : world) (path : string) (w' : world) :
  get_payload part = Bytes b → digest_of E b ∉ seen →
  DataDirectory.render_data E render (Some part) seen w = (Ok (Some path), w') →
  blob_of E w part = Some path ∧ is_Some (files w' !! path).
Proof.
  intros Hb Hfresh. simpl. unfold bind at 1.
  destruct (init_bytes E part b w Hb) as (w1 & -> & Hsub & Hsame). simpl.
  unfold blob_of. rewrite Hb. rewrite bool_decide_eq_false_2 by done.
  set (p := DataDirectory.blob_path _ _).
  unfold bind at 1. simpl. case_bool_decide as Hpresent; simpl.
  - intros [= <- <-]. done.
  - unfold bind at 1. unfold bind at 1.
    destruct (render _ _ w1) as [[r|e|] w2]; [|done..].
    destruct r.1 as [data| |]; simpl; [|done..].
    intros [= <- <-]. simpl. split; [done|]. rewrite lookup_insert_eq. eauto.
Qed.

Lemma directory_render_data_cache (E : Externals) (self : Mapped.t) (fuel : nat)
    (part : Part) (seen : gset string) (w : world) :
  (∀ b, length (sha256 E b) = 32) →
  cache_grows (snd (PartHelper.init E part w))
              (snd (MappedRelative.render_data E self fuel (Some part) seen w)).
Proof.
  intros Hlen. unfold MappedRelative.render_data. simpl. unfold bind at 1.
  destruct (PartHelper.init E part w) as [[h|e|] w0]; simpl; [|apply quiet_refl..].
  case_bool_decide; [apply quiet_refl|].
  unfold bind at 1. simpl. case_bool_decide; simpl; [apply quiet_refl|].
  unfold bind at 1. unfold bind at 1.
  pose proof (steps_MappedRelative_render E self fuel Hlen (Helper h)
                (seen ∪ {[PartHelper.digest h]}) w0) as [_ Hgrow].
  destruct (MappedRelative.render E self fuel _ _ w0) as [[r|e|] w1]; simpl in *; [|done..].
  pose proof (write_binary_cache
                (DataDirectory.blob_path (PartHelper.digest h) (PartHelper.extension h))
                r.1 w1) as Hcache.
  destruct (write_binary _ r.1 w1) as [[[]|e|] w2]; simpl in *;
    unfold cache_grows in *; by rewrite Hcache.
Qed.

(** C7. In the directory variant, with digests of 32 bytes: a reference whose
    digest is in the guard set, or whose blob is in the directory, is answered
    with the name of the blob without rendering or writing; over a whole
    [render] or [render_data] every write goes to a name of the form
    ['blob=' digest extension] that was not in the directory before and that
    is written once, so no two files are written for one digest and extension;
    and once a reference has been answered, the blob is in the directory and
    every later reference to the same part, at any later point of a run, is
    answered with the same name and writes nothing. *)
Theorem directory_writes_blob_once (E : Externals) (self : Mapped.t) (fuel : nat) :
  (∀ b, length (sha256 E b) = 32) →
  (∀ (render : render_method) (part : Part) (b : bytes) (seen : gset string) (w : world),
     get_payload part = Bytes b →
     digest_of E b ∈ seen ∨ (∃ path, blob_of E w part = Some path ∧ is_Some (files w !! path)) →
     ∃ w', DataDirectory.render_data E render (Some part) seen w = (Ok (blob_of E w part), w') ∧
           quiet w w') ∧
  (∀ (arg : render_arg) (seen : gset string) (w : world),
     fresh_writes E seen w (snd (MappedRelative.render E self fuel arg seen w))) ∧
  (∀ (mref : option Part) (seen : gset string) (w : world),
     fresh_writes E seen w (snd (MappedRelative.render_data E self fuel mref seen w))) ∧
  (∀ (part : Part) (b : bytes) (seen : gset string) (w : world) (path : string) (w1 : world),
     get_payload part = Bytes b → digest_of E b ∉ seen →
     MappedRelative.render_data E self fuel (Some part) seen w = (Ok (Some path), w1) →
     is_Some (files w1 !! path) ∧
     ∀ (seen' : gset string) (w2 : world) (fuel2 : nat) (seen2 : gset string),
       directory_step E seen' w1 w2 →
       ∃ w3, MappedRelative.render_data E self fuel2 (Some part) seen2 w2 = (Ok (Some path), w3) ∧
             quiet w2 w3).
Proof.
  intros Hlen. split_and!.
  - intros render part b seen w. apply directory_render_data_reuse.
  - intros arg seen w. by apply steps_MappedRelative_render.
  - intros mref seen w. by apply steps_MappedRelative_render_data.
  - intros part b seen w path w1 Hb Hfresh Hrun.
    pose proof (directory_render_data_cache E self fuel part seen w Hlen) as Hcache.
    rewrite Hrun in Hcache. simpl in Hcache.
    destruct (directory_render_data_written E _ part b seen w path w1 Hb Hfresh Hrun)
      as [Hblob Hfile].
    split; [done|]. intros seen' w2 fuel2 seen2 [(l & _ & _ & _ & Hfiles) Hgrow].
    assert (blob_of E w2 part = Some path) as Hblob2.
    { rewrite <- Hblob. apply blob_of_after_init. unfold cache_grows in *. by etrans. }
    rewrite <- Hblob2. apply directory_render_data_reuse with (b := b); [done|].
    right. exists path. split; [done|]. apply Hfiles. by left.
Qed.

Lemma sha256_pad_length (b : bytes) : length (Sample.sha256_pad b) = 32.
Proof. apply length_resize. Qed.

Lemma directory_writes_blob_once_witness :
  (∀ b, length (sha256 Sample.E b) = 32) ∧
  fresh_writes Sample.E ∅ initial_world
    (snd (MappedRelative.render Sample.E Sample.cyclic 3 (Raw Sample.part_twice) ∅ initial_world)).
Proof.
  split; [exact sha256_pad_length|].
  exact (proj1 (proj2 (directory_writes_blob_once Sample.E Sample.cyclic 3 sha256_pad_length))
           (Raw Sample.part_twice) ∅ initial_world).
Defined.

(** A page with the same image twice: one write, both attributes rewritten to
    the name of the blob, whose content is the payload of the image. *)
Example render_same_image_twice :
  let r := MappedRelative.render Sample.E Sample.cyclic 3 (Raw Sample.part_twice) ∅ initial_world in
  writes (snd r) = [("blob=_9j_AAAAAAAAAAAAAAAAAAAAAAAAAAAAAAAAAAAAAAA=.jpg", [xff; xd8; xff])] ∧
  fst r = Ok (Bytes (list_byte_of_string
    ("<html><head></head><body>"
     +:+ "<img alt='x' src='blob=_9j_AAAAAAAAAAAAAAAAAAAAAAAAAAAAAAAAAAAAAAA=.jpg'></img>"
     +:+ "<img alt='x' src='blob=_9j_AAAAAAAAAAAAAAAAAAAAAAAAAAAAAAAAAAAAAAA=.jpg'></img>"
     +:+ "</body></html>")), "text/html;charset=utf8").
Proof. by vm_compute. Qed.

(** * More of the code *)

(** ** Mapped.__init__: what the index answers *)

Lemma init_snoc (E : Externals) (walk : list Part) (part : Part) :
  Mapped.init E (walk ++ [part]) = Mapped.index_part E (Mapped.init E walk) part.
Proof. unfold Mapped.init. by rewrite fold_left_app. Qed.

Lemma last_filter_snoc {A} (P : A → Prop) `{!∀ x, Decision (P x)} (l : list A) (x : A) :
  last (filter P (l ++ [x])) = if decide (P x) then Some x else last (filter P l).
Proof.
  rewrite filter_app. simpl. rewrite filter_cons, filter_nil.
  destruct (decide (P x)); [apply last_snoc|by rewrite app_nil_r].
Qed.

Lemma index_part_by_id (E : Externals) (self : Mapped.t) (part : Part) (k : string) :
  Mapped.by_id (Mapped.index_part E self part) !! k =
  if id_key k part then Some part else Mapped.by_id self !! k.
Proof.
  unfold Mapped.index_part, id_key. simpl. destruct (Content_ID part) as [cid|]; [|done].
  rewrite lookup_insert. destruct (decide (cid = k)) as [->|Hne].
  - by rewrite bool_decide_eq_true_2.
  - rewrite (bool_decide_eq_false_2 (cid = k)) by done. simpl.
    rewrite lookup_insert. destruct (decide (strip_chars "<>" cid = k)) as [->|Hne'].
    + by rewrite bool_decide_eq_true_2.
    + by rewrite bool_decide_eq_false_2.
Qed.

Lemma index_part_by_loc (E : Externals) (self : Mapped.t) (part : Part) (k : string) :
  Mapped.by_loc (Mapped.index_part E self part) !! k =
  if loc_key E k part then Some part else Mapped.by_loc self !! k.
Proof.
  unfold Mapped.index_part, loc_key. simpl. destruct (Content_Location part) as [loc|]; [|done].
  rewrite lookup_insert. case_decide as Hk.
  - by rewrite bool_decide_eq_true_2.
  - by rewrite bool_decide_eq_false_2.
Qed.

(** X1. The index built from a message answers a content-ID key with the last
    part, in the order of the walk, whose Content-ID is the key as it is or
    once stripped of its angle brackets, and with nothing when there is no such
    part: a later part takes the key of an earlier one. *)
Theorem init_by_id_last (E : Externals) (walk : list Part) (k : string) :
  Mapped.by_id (Mapped.init E walk) !! k = last (filter (λ part, id_key k part) walk).
Proof.
  induction walk as [|part walk IH] using rev_ind; [done|].
  rewrite init_snoc, index_part_by_id, last_filter_snoc, IH.
  destruct (id_key k part); by case_decide.
Qed.

(** X2. The index answers a location key with the last part of the walk whose
    Content-Location, joined against its own Content-Base, is the key; parts
    without a Content-Location are under no key. *)
Theorem init_by_loc_last (E : Externals) (walk : list Part) (k : string) :
  Mapped.by_loc (Mapped.init E walk) !! k = last (filter (λ part, loc_key E k part) walk).
Proof.
  induction walk as [|part walk IH] using rev_ind; [done|].
  rewrite init_snoc, index_part_by_loc, last_filter_snoc, IH.
  destruct (loc_key E k part); by case_decide.
Qed.

(** X3. The entry candidates of the index are exactly the start parameters of
    the parts of the message. *)
Theorem init_starts (E : Externals) (walk : list Part) (start : string) :
  start ∈ Mapped.starts (Mapped.init E walk) ↔
  ∃ part, part ∈ walk ∧ get_param_start part = Some start.
Proof.
  induction walk as [|part walk IH] using rev_ind.
  - split; [by intros ?%not_elem_of_empty|]. intros (part & Hin & _). by apply elem_of_nil in Hin.
  - rewrite init_snoc. unfold Mapped.index_part at 1. simpl.
    assert (start ∈ (match get_param_start part with
                     | Some s => Mapped.starts (Mapped.init E walk) ∪ {[s]}
                     | None => Mapped.starts (Mapped.init E walk)
                     end)
            ↔ start ∈ Mapped.starts (Mapped.init E walk) ∨ get_param_start part = Some start)
      as ->.
    { destruct (get_param_start part) as [s|].
      - rewrite elem_of_union, elem_of_singleton. split.
        + intros [?| ->]; [by left|by right].
        + intros [?|[= ->]]; [by left|by right].
      - split; [by left|]. by intros [?|?]. }
    rewrite IH. split.
    + intros [(q & Hq & Hs)|Hs]; [exists q|exists part]; split; try done;
        apply elem_of_app; [by left|right; by apply list_elem_of_singleton].
    + intros (q & [Hq|Hq%list_elem_of_singleton]%elem_of_app & Hs); [left; eauto|right; by subst].
Qed.

Lemma last_filter_elem {A} (P : A → Prop) `{!∀ x, Decision (P x)} (l : list A) (x : A) :
  last (filter P l) = Some x → x ∈ l ∧ P x.
Proof.
  intros Hlast. apply last_Some in Hlast as [l' Hl'].
  assert (x ∈ filter P l) as Hin by (rewrite Hl'; apply elem_of_app; right; left).
  by apply list_elem_of_filter in Hin as [? ?].
Qed.

(** The index holds parts of the message only. *)
Lemma init_index_elem (E : Externals) (walk : list Part) (k : string) (part : Part) :
  Mapped.by_id (Mapped.init E walk) !! k = Some part ∨
  Mapped.by_loc (Mapped.init E walk) !! k = Some part →
  part ∈ walk.
Proof.
  induction walk as [|q walk IH] using rev_ind; [by intros [?|?]|].
  rewrite init_snoc, index_part_by_id, index_part_by_loc, elem_of_app, list_elem_of_singleton.
  intros [Hk|Hk].
  - destruct (id_key k q); [right; congruence|left; apply IH; by left].
  - destruct (loc_key E k q); [right; congruence|left; apply IH; by right].
Qed.

Lemma targets_init (E : Externals) (walk : list Part) (part : Part) :
  part ∈ targets (Mapped.init E walk) → part ∈ walk.
Proof.
  unfold targets. rewrite elem_of_app, !list_elem_of_fmap.
  intros [([k p] & -> & Hin)|([k p] & -> & Hin)]; apply elem_of_map_to_list in Hin; simpl.
  - apply (init_index_elem E walk k). by right.
  - apply (init_index_elem E walk k). by left.
Qed.

Lemma size_list_to_set_le (l : list string) : size (list_to_set l : gset string) ≤ length l.
Proof.
  induction l as [|x l IH]; [rewrite list_to_set_nil, size_empty; done|].
  rewrite list_to_set_cons, size_union_alt, size_singleton. simpl.
  assert (size ((list_to_set l : gset string) ∖ {[x]}) ≤ size (list_to_set l : gset string))
    by (apply subseteq_size; intros y; rewrite elem_of_difference; tauto).
  lia.
Qed.

Lemma length_omap_le {A B} (f : A → option B) (l : list A) : length (omap f l) ≤ length l.
Proof. induction l as [|x l IH]; csimpl; [done|]. destruct (f x); simpl; lia. Qed.

Lemma fuel_bound_init (E : Externals) (walk : list Part) (seen : gset string) :
  fuel_bound E (Mapped.init E walk) seen ≤ length walk.
Proof.
  unfold fuel_bound.
  assert (index_digests E (Mapped.init E walk) ∖ seen
          ⊆ list_to_set (omap (part_digest E) walk)) as Hsub.
  { intros d. rewrite elem_of_difference. intros [Hd _]. unfold index_digests in Hd.
    apply elem_of_list_to_set, list_elem_of_omap in Hd as (part & Hin & Hpd).
    apply elem_of_list_to_set, list_elem_of_omap. exists part. split; [|done].
    by apply targets_init in Hin. }
  apply subseteq_size in Hsub. pose proof (size_list_to_set_le (omap (part_digest E) walk)).
  pose proof (length_omap_le (part_digest E) walk). lia.
Qed.

(** X4. With the index of a message, one nested call for each part of the
    message is enough: [render] ends with a value or an exception, for any
    argument and guard set, in both variants. *)
Theorem render_terminates_on_message (E : Externals) (walk : list Part)
    (arg : render_arg) (seen : gset string) (w : world) :
  fst (MappedRelative.render E (Mapped.init E walk) (length walk) arg seen w) ≠ OutOfFuel ∧
  fst (MappedInline.render E (Mapped.init E walk) (length walk) arg seen w) ≠ OutOfFuel.
Proof.
  split.
  - apply total_MappedRelative_render, fuel_bound_init.
  - apply total_MappedInline_render.
Qed.

(** ** PartHelper and render on a payload that is not bytes *)

Lemma bind_ok {A B} (m : M A) (k : A → M B) (w : world) (b : B) (w' : world) :
  bind m k w = (Ok b, w') → ∃ a w1, m w = (Ok a, w1) ∧ k a w1 = (Ok b, w').
Proof.
  unfold bind. destruct (m w) as [[a|e|] w1]; [|done..]. intros Hk. by exists a, w1.
Qed.

(** X5. A part whose payload is not a byte sequence, as that of a multipart
    container, cannot be wrapped: hashing the payload raises [TypeError].  So
    does every reference to such a part, whatever the guard set, in both
    variants, and so does rendering the part itself. *)
Theorem payload_must_be_bytes (E : Externals) (self : Mapped.t) (fuel : nat)
    (part : Part) (seen : gset string) (w : world) :
  (∀ b, get_payload part ≠ Bytes b) →
  ∃ msg,
    fst (PartHelper.init E part w) = Raise (TypeError msg) ∧
    fst (MappedInline.render_data E self fuel (Some part) seen w) = Raise (TypeError msg) ∧
    fst (MappedRelative.render_data E self fuel (Some part) seen w) = Raise (TypeError msg) ∧
    fst (MappedInline.render E self fuel (Raw part) seen w) = Raise (TypeError msg) ∧
    fst (MappedRelative.render E self fuel (Raw part) seen w) = Raise (TypeError msg).
Proof.
  intros Hb. destruct (init_not_bytes E part w Hb) as (msg & w' & Hinit & _).
  exists msg. rewrite MappedInline_render_unfold, MappedRelative_render_unfold.
  unfold MappedInline.render_data, MappedRelative.render_data, Mapped.render. simpl.
  unfold bind. by rewrite Hinit.
Qed.

Lemma payload_must_be_bytes_witness :
  (∀ b, get_payload Sample.container ≠ Bytes b) ∧
  ∃ msg,
    fst (MappedRelative.render_data Sample.E Sample.cyclic 3 (Some Sample.container) ∅
           initial_world) = Raise (TypeError msg).
Proof.
  assert (∀ b, get_payload Sample.container ≠ Bytes b) as Hb by done.
  split; [exact Hb|].
  destruct (payload_must_be_bytes Sample.E Sample.cyclic 3 Sample.container ∅ initial_world Hb)
    as (msg & _ & _ & Hrel & _).
  by exists msg.
Defined.

(** X6. What [render] returns for a part is always a byte sequence, and the
    part has a payload of bytes: under ["text/html"] the serialised document
    tagged ["text/html;charset=utf8"], otherwise the payload itself under the
    effective content type.  The branch that encodes a textual payload and
    adds a charset to another content type is never taken for a part. *)
Theorem render_part_returns_bytes (E : Externals) (self : Mapped.t)
    (render_data : render_data_method) (part : Part) (seen : gset string) (w : world)
    (data : payload_value) (ct : string) (w' : world) :
  Mapped.render E self render_data (Raw part) seen w = (Ok (data, ct), w') →
  ∃ b, get_payload part = Bytes b ∧
       ((PartHelper.effective_content_type E part = "text/html" ∧
         ct = "text/html;charset=utf8" ∧ ∃ doc, data = Bytes (doc_encode E doc)) ∨
        (PartHelper.effective_content_type E part ≠ "text/html" ∧
         ct = PartHelper.effective_content_type E part ∧ data = Bytes b)).
Proof.
  unfold Mapped.render. intros (h & w1 & Hinit & Hrest)%bind_ok.
  destruct (init_digest E part w h w1 Hinit) as (b & Hb & _ & Hpayload & _).
  assert (PartHelper.content_type h = PartHelper.effective_content_type E part) as Hct
    by exact (wrap_content_type E (Raw part) w h w1 Hinit).
  exists b. split; [done|]. rewrite Hct, Hpayload in Hrest. case_bool_decide as Hhtml.
  - left. apply bind_ok in Hrest as (doc & w2 & _ & Hrest).
    apply bind_ok in Hrest as (base & w3 & _ & Hrest).
    apply bind_ok in Hrest as (doc' & w4 & _ & Hrest).
    inversion Hrest; subst. eauto.
  - right. inversion Hrest; subst. done.
Qed.

Lemma render_part_returns_bytes_witness :
  Mapped.render Sample.E Sample.cyclic (MappedRelative.render_data Sample.E Sample.cyclic 2)
    (Raw Sample.part_image) ∅ initial_world
  = (Ok (Bytes [xff; xd8; xff], "image/jpeg"), initial_world) ∧
  ∃ b, get_payload Sample.part_image = Bytes b.
Proof.
  assert (Mapped.render Sample.E Sample.cyclic
            (MappedRelative.render_data Sample.E Sample.cyclic 2)
            (Raw Sample.part_image) ∅ initial_world
          = (Ok (Bytes [xff; xd8; xff], "image/jpeg"), initial_world)) as Hrun by by vm_compute.
  split; [exact Hrun|].
  destruct (render_part_returns_bytes Sample.E Sample.cyclic _ Sample.part_image ∅ initial_world
              _ _ _ Hrun) as (b & Hb & _).
  by exists b.
Defined.

(** ** What a run leaves alone *)

Lemma quiet_trans (w1 w2 w3 : world) : quiet w1 w2 → quiet w2 w3 → quiet w1 w3.
Proof.
  intros [[Hf1 Hw1] Hc1] [[Hf2 Hw2] Hc2]. split; [split; congruence|].
  unfold cache_grows in *. by etrans.
Qed.

#[local] Instance quiet_reflexive : Reflexive quiet.
Proof. intros w. apply quiet_refl. Qed.

#[local] Instance quiet_transitive : Transitive quiet.
Proof. intros w1 w2 w3. apply quiet_trans. Qed.

Lemma steps_inline_render_data (render : render_method) (E : Externals)
    (mref : option Part) (seen : gset string) :
  steps quiet (InlineData.render_data E render mref seen).
Proof.
  intros w. destruct mref as [part|]; simpl; [|reflexivity].
  unfold bind at 1. pose proof (init_quiet E part w) as Hq.
  destruct (PartHelper.init E part w) as [[h|e|] w1]; simpl in *; [|done..].
  by case_bool_decide.
Qed.

(** X7. The inline variant never touches a file: over a whole [render] no
    file is written or changed, and the extension cache only gains entries. *)
Theorem inline_render_touches_no_file (E : Externals) (self : Mapped.t) (fuel : nat)
    (arg : render_arg) (seen : gset string) (w : world) :
  files (snd (MappedInline.render E self fuel arg seen w)) = files w ∧
  writes (snd (MappedInline.render E self fuel arg seen w)) = writes w ∧
  common_types w ⊆ common_types (snd (MappedInline.render E self fuel arg seen w)).
Proof.
  assert (quiet w (snd (MappedInline.render E self fuel arg seen w))) as [[? ?] ?]; [|done].
  rewrite MappedInline_render_unfold.
  apply (steps_render quiet); [done|]. intros mref. apply steps_inline_render_data.
Qed.

#[local] Instance directory_keeps_reflexive (E : Externals) (seen : gset string) :
  Reflexive (directory_keeps E seen).
Proof. intros w. split; [reflexivity|]. unfold keeps_files. reflexivity. Qed.

#[local] Instance directory_keeps_transitive (E : Externals) (seen : gset string) :
  Transitive (directory_keeps E seen).
Proof.
  intros w1 w2 w3 [Hs1 Hk1] [Hs2 Hk2]. split; [by etrans|].
  unfold keeps_files in *. by etrans.
Qed.

Lemma directory_keeps_quiet (E : Externals) (seen : gset string) (w w' : world) :
  quiet w w' → directory_keeps E seen w w'.
Proof.
  intros Hq. split; [by apply directory_step_quiet|].
  destruct Hq as [[Hf _] _]. unfold keeps_files. by rewrite Hf.
Qed.

Lemma directory_keeps_weaken (E : Externals) (seen seen' : gset string) (w w' : world) :
  seen ⊆ seen' → directory_keeps E seen' w w' → directory_keeps E seen w w'.
Proof. intros Hsub [Hs Hk]. split; [by eapply directory_step_weaken|done]. Qed.

Lemma write_binary_keeps (path : string) (binary : payload_value) (w : world) :
  files w !! path = None → keeps_files w (snd (write_binary path binary w)).
Proof.
  intros Hnone. unfold keeps_files.
  destruct binary; simpl; by apply insert_subseteq.
Qed.

Lemma steps_directory_render_data_keeps (E : Externals) (render : render_method)
    (mref : option Part) (seen : gset string) :
  (∀ b, length (sha256 E b) = 32) →
  (∀ h d, steps (directory_keeps E (seen ∪ {[d]})) (render (Helper h) (seen ∪ {[d]}))) →
  steps (directory_keeps E seen) (DataDirectory.render_data E render mref seen).
Proof.
  intros Hlen Hr w. destruct mref as [part|]; simpl; [|reflexivity].
  unfold bind at 1. pose proof (init_quiet E part w) as Hquiet.
  destruct (PartHelper.init E part w) as [[h|e|] w1] eqn:Hinit; simpl in Hquiet;
    [|by apply directory_keeps_quiet..].
  destruct (init_digest E part w h w1 Hinit) as (b & Hb & Hd & _ & _ & _).
  etrans; [by apply directory_keeps_quiet|]. rewrite Hd.
  set (p := DataDirectory.blob_path _ _).
  case_bool_decide as Hseen; [reflexivity|].
  unfold bind at 1. simpl. case_bool_decide as Hpresent; simpl; [reflexivity|].
  assert (files w1 !! p = None) as Hnone.
  { destruct (files w1 !! p) eqn:Hp; [|done]. destruct Hpresent. eauto. }
  unfold bind at 1. unfold bind at 1.
  specialize (Hr h (digest_of E b) w1).
  destruct (render (Helper h) (seen ∪ {[digest_of E b]}) w1) as [[r|e|] w2];
    simpl in Hr |- *; try (eapply directory_keeps_weaken; [|exact Hr]; set_solver).
  assert (files w2 !! p = None) as Hnone2.
  { destruct Hr as [[Hr _] _]. eapply fresh_writes_absent; [done|exact Hr| |done]. set_solver. }
  assert (directory_keeps E seen w2 (snd (write_binary p r.1 w2))) as Hwrite.
  { split; [split|].
    - by apply fresh_writes_write.
    - unfold cache_grows. by rewrite write_binary_cache.
    - by apply write_binary_keeps. }
  etrans; [eapply directory_keeps_weaken; [|exact Hr]; set_solver|].
  by destruct (write_binary p r.1 w2) as [[[]|e|] w3].
Qed.

Lemma steps_MappedRelative_render_keeps (E : Externals) (self : Mapped.t) (fuel : nat) :
  (∀ b, length (sha256 E b) = 32) →
  ∀ (arg : render_arg) (seen : gset string),
    steps (directory_keeps E seen) (MappedRelative.render E self fuel arg seen).
Proof.
  intros Hlen. induction fuel as [|fuel IH]; intros arg seen;
    rewrite MappedRelative_render_unfold;
    (apply steps_render; [apply _..|apply directory_keeps_quiet|]); intros mref;
    apply steps_directory_render_data_keeps; try done.
  intros h d w. reflexivity.
Qed.

(** X8. With digests of 32 bytes, the directory variant never removes or
    overwrites a file: whatever was in the directory before a [render] is
    there after it with the same content, and the extension cache keeps its
    entries. *)
Theorem directory_render_keeps_files (E : Externals) (self : Mapped.t) (fuel : nat)
    (arg : render_arg) (seen : gset string) (w : world) :
  (∀ b, length (sha256 E b) = 32) →
  (∀ path data, files w !! path = Some data →
     files (snd (MappedRelative.render E self fuel arg seen w)) !! path = Some data) ∧
  (∀ mime_type ext, common_types w !! mime_type = Some ext →
     common_types (snd (MappedRelative.render E self fuel arg seen w)) !! mime_type = Some ext).
Proof.
  intros Hlen.
  destruct (steps_MappedRelative_render_keeps E self fuel Hlen arg seen w) as [[_ Hc] Hk].
  split.
  - intros path data Hp. by eapply lookup_weaken.
  - intros mime_type ext Hm. by eapply lookup_weaken.
Qed.

Lemma directory_render_keeps_files_witness :
  (∀ b, length (sha256 Sample.E b) = 32) ∧
  ∀ mime_type ext, common_types initial_world !! mime_type = Some ext →
    common_types (snd (MappedRelative.render Sample.E Sample.cyclic 3 (Raw Sample.part_a) ∅
                         initial_world)) !! mime_type = Some ext.
Proof.
  split; [exact sha256_pad_length|].
  exact (proj2 (directory_render_keeps_files Sample.E Sample.cyclic 3 (Raw Sample.part_a) ∅
                  initial_world sha256_pad_length)).
Defined.

(** X9. In the directory variant, a first reference to a part that is not
    HTML writes exactly one file: when the digest of the part is not in the
    guard set and no file has the name of its blob, [render_data] answers that
    name and the file holds exactly the payload of the part; nothing else is
    written. *)
Theorem directory_blob_holds_payload (E : Externals) (self : Mapped.t) (fuel : nat)
    (part : Part) (b : bytes) (seen : gset string) (w : world) (path : string) :
  get_payload part = Bytes b →
  PartHelper.effective_content_type E part ≠ "text/html" →
  digest_of E b ∉ seen →
  blob_of E w part = Some path →
  files w !! path = None →
  ∃ w', MappedRelative.render_data E self fuel (Some part) seen w = (Ok (Some path), w') ∧
        files w' = <[path := b]> (files w) ∧
        writes w' = writes w ++ [(path, b)].
Proof.
  intros Hb Hct Hfresh Hblob Hnone. unfold MappedRelative.render_data. simpl.
  unfold bind at 1. destruct (init_bytes E part b w Hb) as (w1 & -> & _ & [Hf Hw]). simpl.
  unfold blob_of in Hblob. rewrite Hb in Hblob. injection Hblob as <-.
  rewrite bool_decide_eq_false_2 by done.
  unfold bind at 1. simpl. rewrite Hf.
  rewrite bool_decide_eq_false_2 by (rewrite Hnone; by intros [? ?]). simpl.
  unfold bind at 1. unfold bind at 1.
  rewrite MappedRelative_render_unfold, render_not_html by done. simpl.
  eexists. split; [reflexivity|]. simpl. by rewrite Hf, Hw.
Qed.

Lemma directory_blob_holds_payload_witness :
  get_payload Sample.part_image = Bytes [xff; xd8; xff] ∧
  PartHelper.effective_content_type Sample.E Sample.part_image ≠ "text/html" ∧
  (digest_of Sample.E [xff; xd8; xff] ∉ (∅ : gset string)) ∧
  blob_of Sample.E initial_world Sample.part_image
  = Some "blob=_9j_AAAAAAAAAAAAAAAAAAAAAAAAAAAAAAAAAAAAAAA=.jpg" ∧
  files initial_world !! "blob=_9j_AAAAAAAAAAAAAAAAAAAAAAAAAAAAAAAAAAAAAAA=.jpg" = None ∧
  ∃ w', MappedRelative.render_data Sample.E Sample.cyclic 0 (Some Sample.part_image) ∅
          initial_world
        = (Ok (Some "blob=_9j_AAAAAAAAAAAAAAAAAAAAAAAAAAAAAAAAAAAAAAA=.jpg"), w') ∧
        files w' = <["blob=_9j_AAAAAAAAAAAAAAAAAAAAAAAAAAAAAAAAAAAAAAA=.jpg" := [xff; xd8; xff]]>
                     (files initial_world) ∧
        writes w' = writes initial_world
                    ++ [("blob=_9j_AAAAAAAAAAAAAAAAAAAAAAAAAAAAAAAAAAAAAAA=.jpg", [xff; xd8; xff])].
Proof.
  split; [reflexivity|]. split; [by vm_compute|]. split; [apply not_elem_of_empty|].
  split; [by vm_compute|]. split; [reflexivity|].
  apply (directory_blob_holds_payload Sample.E Sample.cyclic 0 Sample.part_image
           [xff; xd8; xff] ∅ initial_world);
    [reflexivity|by vm_compute|apply not_elem_of_empty|by vm_compute|reflexivity].
Defined.

(** ** Rendering HTML: what the rewriting leaves in place *)

Lemma returns_ret {A} (P : A → Prop) (a : A) : P a → returns P (ret a).
Proof. intros Ha w a' w' [= <- _]. exact Ha. Qed.

Lemma returns_bind {A B} (P : A → Prop) (Q : B → Prop) (m : M A) (k : A → M B) :
  returns P m → (∀ a, P a → returns Q (k a)) → returns Q (bind m k).
Proof.
  intros Hm Hk w b w' (a & w1 & Hrun & Hrest)%bind_ok.
  eapply Hk; [|exact Hrest]. by eapply Hm.
Qed.

Lemma returns_any {A} (m : M A) : returns (λ _, True) m.
Proof. by intros w a w' _. Qed.

Lemma returns_foldM {A B} (P : B → Prop) (f : B → A → M B) (l : list A) (acc : B) :
  (∀ acc x, x ∈ l → P acc → returns P (f acc x)) → P acc → returns P (foldM f acc l).
Proof.
  revert acc. induction l as [|x l IH]; intros acc Hf Hacc; simpl.
  - by apply returns_ret.
  - eapply returns_bind; [apply Hf; [left|exact Hacc]|].
    intros acc' Hacc'. apply IH; [|exact Hacc']. intros acc'' y Hy. apply Hf. by right.
Qed.

Lemma returns_mapM {A B} (Q : A → B → Prop) (f : A → M B) (l : list A) :
  Forall (λ x, returns (Q x) (f x)) l → returns (λ ys, Forall2 Q l ys) (mapM f l).
Proof.
  induction 1 as [|x l Hx Hl IH]; simpl.
  - apply returns_ret. constructor.
  - eapply returns_bind; [exact Hx|]. intros y Hy.
    eapply returns_bind; [exact IH|]. intros ys Hys. apply returns_ret. by constructor.
Qed.

Lemma strip_empty : strip EmptyString = EmptyString.
Proof. reflexivity. Qed.

Lemma blank_attrs_attr_set (name attr uri : string) (attrs : list (string * string)) :
  attr ∈ Mapped.refs_get name → is_Some (attr_get attr attrs) →
  blank_attrs name (attr_set attr uri attrs) = blank_attrs name attrs.
Proof.
  intros Href. induction attrs as [|[k v] attrs IH]; simpl; [by intros [? ?]|].
  case_bool_decide as Hk; simpl.
  - intros _. subst k. by rewrite !bool_decide_eq_true_2.
  - intros Hsome. by rewrite IH.
Qed.

Lemma rewrite_attr_blank (E : Externals) (self : Mapped.t) (render_data : render_data_method)
    (base : url_arg) (seen : gset string) (name : string) (attrs : list (string * string))
    (attr : string) :
  attr ∈ Mapped.refs_get name →
  returns (λ attrs', blank_attrs name attrs' = blank_attrs name attrs)
          (Mapped.rewrite_attr E self render_data base seen name attrs attr).
Proof.
  intros Href. unfold Mapped.rewrite_attr. case_bool_decide as Hhref; [by apply returns_ret|].
  assert (is_Some (attr_get attr attrs)) as Hsome.
  { destruct (attr_get attr attrs); [eauto|]. by destruct Hhref. }
  eapply returns_bind; [apply returns_any|]. intros mref _.
  eapply returns_bind; [apply returns_any|]. intros _ _.
  eapply returns_bind; [apply returns_any|]. intros [uri|] _; apply returns_ret; [|done].
  by apply blank_attrs_attr_set.
Qed.

Lemma rewrite_tag_blank (E : Externals) (self : Mapped.t) (render_data : render_data_method)
    (base : url_arg) (seen : gset string) (name : string) (attrs : list (string * string)) :
  returns (λ attrs', blank_attrs name attrs' = blank_attrs name attrs)
          (Mapped.rewrite_tag E self render_data base seen name attrs).
Proof.
  unfold Mapped.rewrite_tag. apply returns_foldM; [|done].
  intros acc attr Hattr Hacc. intros w attrs' w' Hrun. rewrite <- Hacc.
  by eapply rewrite_attr_blank.
Qed.

Lemma visit_node_blank (visit : string → list (string * string) → M (list (string * string)))
    (n : node) :
  (∀ name attrs, returns (λ attrs', blank_attrs name attrs' = blank_attrs name attrs)
                         (visit name attrs)) →
  returns (λ n', blank n' = blank n) (visit_node visit n).
Proof.
  intros Hv. induction n as [s|name attrs contents IH] using node_induction; simpl.
  - by apply returns_ret.
  - eapply returns_bind; [apply Hv|]. intros attrs' Hattrs.
    eapply (returns_bind (λ contents', map blank contents' = map blank contents)).
    + induction IH as [|c contents Hc _ IHc].
      * by apply returns_ret.
      * eapply returns_bind; [exact Hc|]. intros c' Hc'.
        eapply returns_bind; [exact IHc|]. intros cs' Hcs'.
        apply returns_ret. simpl. by rewrite Hc', Hcs'.
    + intros contents' Hcontents. apply returns_ret. simpl. by rewrite Hattrs, Hcontents.
Qed.

Lemma visit_descendants_blank (E : Externals) (self : Mapped.t)
    (render_data : render_data_method) (base : url_arg) (seen : gset string) (doc : list node) :
  returns (λ doc', map blank doc' = map blank doc)
          (visit_descendants (Mapped.rewrite_tag E self render_data base seen) doc).
Proof.
  intros w doc' w' Hrun.
  assert (Forall2 (λ n n', blank n' = blank n) doc doc') as Hall.
  { eapply (returns_mapM (λ n n', blank n' = blank n)); [|exact Hrun].
    apply Forall_forall. intros n _. apply visit_node_blank. intros name attrs.
    apply rewrite_tag_blank. }
  clear Hrun. induction Hall as [|n n' doc doc' Hn _ IH]; simpl; [done|]. by rewrite Hn, IH.
Qed.

(** X10. Rendering an HTML part changes nothing but values of reference
    attributes: the document that is serialised has the elements and strings
    of the parsed one, in the same order, each element with the same
    attributes in the same order, and the same values for every attribute that
    the table [refs] does not list for the element. *)
Theorem render_html_keeps_structure (E : Externals) (self : Mapped.t)
    (render_data : render_data_method) (part : Part) (b : bytes) (seen : gset string)
    (w : world) (data : payload_value) (ct : string) (w' : world) :
  get_payload part = Bytes b →
  PartHelper.effective_content_type E part = "text/html" →
  Mapped.render E self render_data (Raw part) seen w = (Ok (data, ct), w') →
  ∃ doc, data = Bytes (doc_encode E doc) ∧
         map blank doc = map blank (BeautifulSoup E (Bytes b)).
Proof.
  intros Hb Hct. unfold Mapped.render. intros (h & w1 & Hinit & Hrest)%bind_ok.
  destruct (init_digest E part w h w1 Hinit) as (b' & Hb' & _ & Hpayload & _).
  assert (b' = b) as -> by congruence.
  rewrite (wrap_content_type E (Raw part) w h w1 Hinit) in Hrest. simpl in Hrest.
  rewrite Hct, Hpayload in Hrest. rewrite bool_decide_eq_true_2 in Hrest by done.
  apply bind_ok in Hrest as (doc & w2 & Hparse & Hrest). injection Hparse as <- <-.
  apply bind_ok in Hrest as (base & w3 & _ & Hrest).
  apply bind_ok in Hrest as (doc' & w4 & Hvisit & Hrest).
  injection Hrest as <- <- <-. exists doc'. split; [done|].
  by eapply visit_descendants_blank.
Qed.

Lemma render_html_keeps_structure_witness :
  get_payload Sample.part_a = Bytes [x02] ∧
  PartHelper.effective_content_type Sample.E Sample.part_a = "text/html" ∧
  ∃ data ct w',
    Mapped.render Sample.E Sample.cyclic (MappedRelative.render_data Sample.E Sample.cyclic 2)
      (Raw Sample.part_a) ∅ initial_world = (Ok (data, ct), w') ∧
    ∃ doc, data = Bytes (doc_encode Sample.E doc) ∧
           map blank doc = map blank (BeautifulSoup Sample.E (Bytes [x02])).
Proof.
  split; [reflexivity|]. split; [by vm_compute|].
  destruct (Mapped.render Sample.E Sample.cyclic
              (MappedRelative.render_data Sample.E Sample.cyclic 2)
              (Raw Sample.part_a) ∅ initial_world) as [[[data ct]|e|] w'] eqn:Hrun.
  - exists data, ct, w'. split; [reflexivity|].
    apply (render_html_keeps_structure Sample.E Sample.cyclic
             (MappedRelative.render_data Sample.E Sample.cyclic 2)
             Sample.part_a [x02] ∅ initial_world data ct w');
      [reflexivity|by vm_compute|exact Hrun].
  - exfalso. apply (f_equal fst) in Hrun. vm_compute in Hrun. discriminate.
  - exfalso. apply (f_equal fst) in Hrun. vm_compute in Hrun. discriminate.
Defined.

(** ** Rendering HTML when nothing resolves *)

Lemma stays_ret {A} (a : A) : stays a (ret a).
Proof. intros w. exists w. split; [done|apply quiet_refl]. Qed.

Lemma stays_bind {A B} (a : A) (b : B) (m : M A) (k : A → M B) :
  stays a m → stays b (k a) → stays b (bind m k).
Proof.
  intros Hm Hk w. unfold bind. destruct (Hm w) as (w1 & -> & Hq1).
  destruct (Hk w1) as (w2 & -> & Hq2). exists w2. split; [done|by eapply quiet_trans].
Qed.

Lemma stays_foldM {A B} (f : B → A → M B) (acc : B) (l : list A) :
  (∀ x, stays acc (f acc x)) → stays acc (foldM f acc l).
Proof.
  intros Hf. induction l as [|x l IH]; simpl; [apply stays_ret|].
  eapply stays_bind; [apply Hf|exact IH].
Qed.

Lemma stays_mapM {A} (f : A → M A) (l : list A) :
  Forall (λ x, stays x (f x)) l → stays l (mapM f l).
Proof.
  induction 1 as [|x l Hx Hl IH]; simpl; [apply stays_ret|].
  eapply stays_bind; [exact Hx|]. eapply stays_bind; [exact IH|]. apply stays_ret.
Qed.

Lemma stays_visit_node (visit : string → list (string * string) → M (list (string * string)))
    (n : node) :
  (∀ name attrs, stays attrs (visit name attrs)) → stays n (visit_node visit n).
Proof.
  intros Hv. induction n as [s|name attrs contents IH] using node_induction; simpl.
  - apply stays_ret.
  - eapply stays_bind; [apply Hv|]. eapply (stays_bind contents); [|apply stays_ret].
    induction IH as [|c contents Hc _ IHc]; [apply stays_ret|].
    eapply stays_bind; [exact Hc|]. eapply stays_bind; [exact IHc|]. apply stays_ret.
Qed.

Lemma resolve_with_str_base (E : Externals) (self : Mapped.t) (base href : string) (w : world) :
  Mapped.resolve E self (UStr base) href w = (Ok (target_of E self base href), w).
Proof.
  unfold Mapped.resolve, target_of. case_bool_decide; [done|].
  unfold bind. by rewrite urljoin_str_args.
Qed.

Lemma rewrite_attr_unresolved (E : Externals) (self : Mapped.t)
    (render_data : render_data_method) (base : string) (seen : gset string)
    (name : string) (attrs : list (string * string)) (attr : string) :
  Mapped.by_loc self = ∅ → Mapped.by_id self = ∅ →
  (∀ w, render_data None seen w = (Ok None, w)) →
  stays attrs (Mapped.rewrite_attr E self render_data (UStr base) seen name attrs attr).
Proof.
  intros Hloc Hid Hrd w.
  destruct (decide (strip (default EmptyString (attr_get attr attrs)) = EmptyString)) as [He|Hne].
  - unfold Mapped.rewrite_attr. rewrite bool_decide_eq_true_2 by done. apply stays_ret.
  - rewrite (rewrite_attr_resolved E self render_data (UStr base) seen name attrs attr
               (target_of E self base (strip (default EmptyString (attr_get attr attrs)))) w);
      [|done|by rewrite resolve_with_str_base].
    assert (target_of E self base (strip (default EmptyString (attr_get attr attrs))) = None)
      as ->.
    { unfold target_of. rewrite Hloc, Hid. by case_bool_decide. }
    unfold bind. rewrite Hrd. eexists. split; [reflexivity|]. apply print_quiet.
Qed.

Lemma render_unresolved (E : Externals) (self : Mapped.t) (render_data : render_data_method)
    (part : Part) (b : bytes) (seen : gset string) (w : world) :
  Mapped.by_loc self = ∅ → Mapped.by_id self = ∅ →
  (∀ w, render_data None seen w = (Ok None, w)) →
  get_payload part = Bytes b →
  PartHelper.effective_content_type E part = "text/html" →
  find_all_limit1 "base" (BeautifulSoup E (Bytes b)) = [] →
  ∃ w', Mapped.render E self render_data (Raw part) seen w
        = (Ok (Bytes (doc_encode E (BeautifulSoup E (Bytes b))), "text/html;charset=utf8"), w') ∧
        quiet w w'.
Proof.
  intros Hloc Hid Hrd Hb Hct Hbase. unfold Mapped.render. unfold bind at 1.
  destruct (init_bytes E part b w Hb) as (w1 & -> & Hsub & Hsame). simpl.
  rewrite Hct. rewrite bool_decide_eq_true_2 by done.
  unfold bind at 1. simpl. unfold bind at 1.
  rewrite (effective_base_no_element E self part _ w1 Hbase).
  set (base := urljoin_s E _ _).
  destruct (stays_mapM (visit_node (Mapped.rewrite_tag E self render_data (UStr base) seen))
              (BeautifulSoup E (Bytes b))) with (w := w1) as (w2 & Hvisit & Hq).
  { apply Forall_forall. intros n _. apply stays_visit_node. intros name attrs.
    unfold Mapped.rewrite_tag. apply stays_foldM. intros attr.
    by apply rewrite_attr_unresolved. }
  unfold bind, visit_descendants. rewrite Hvisit. simpl. exists w2. split; [done|].
  eapply quiet_trans; [|exact Hq]. by split.
Qed.

(** X11. Broken links stay broken: when the index is empty and the document
    has no [<base>] element, a [render] of an HTML part that returns gives the
    parsed document serialised as it is, tagged ["text/html;charset=utf8"], in
    both variants; and whether it returns or not, no file is written and the
    extension cache keeps its entries. *)
Theorem render_html_nothing_resolves (E : Externals) (self : Mapped.t) (fuel : nat)
    (part : Part) (b : bytes) (seen : gset string) (w : world) :
  Mapped.by_loc self = ∅ → Mapped.by_id self = ∅ →
  get_payload part = Bytes b →
  PartHelper.effective_content_type E part = "text/html" →
  find_all_limit1 "base" (BeautifulSoup E (Bytes b)) = [] →
  (∀ data ct w',
     MappedInline.render E self fuel (Raw part) seen w = (Ok (data, ct), w') →
     data = Bytes (doc_encode E (BeautifulSoup E (Bytes b))) ∧ ct = "text/html;charset=utf8") ∧
  quiet w (snd (MappedInline.render E self fuel (Raw part) seen w)) ∧
  (∀ data ct w',
     MappedRelative.render E self fuel (Raw part) seen w = (Ok (data, ct), w') →
     data = Bytes (doc_encode E (BeautifulSoup E (Bytes b))) ∧ ct = "text/html;charset=utf8") ∧
  quiet w (snd (MappedRelative.render E self fuel (Raw part) seen w)).
Proof.
  intros Hloc Hid Hb Hct Hbase.
  destruct (render_unresolved E self
              (InlineData.render_data E
                 (match fuel with
                  | O => fun _ _ => diverge
                  | S fuel' => MappedInline.render E self fuel'
                  end)) part b seen w) as (wi & Hi & Hqi); try done.
  destruct (render_unresolved E self
              (DataDirectory.render_data E
                 (match fuel with
                  | O => fun _ _ => diverge
                  | S fuel' => MappedRelative.render E self fuel'
                  end)) part b seen w) as (wr & Hr & Hqr); try done.
  rewrite MappedInline_render_unfold, MappedRelative_render_unfold, Hi, Hr. simpl.
  split_and!; try done.
  - by intros data ct w' [= <- <- _].
  - by intros data ct w' [= <- <- _].
Qed.

Lemma render_html_nothing_resolves_witness :
  Mapped.by_loc (Mapped.init Sample.E []) = ∅ ∧
  Mapped.by_id (Mapped.init Sample.E []) = ∅ ∧
  get_payload Sample.part_a = Bytes [x02] ∧
  PartHelper.effective_content_type Sample.E Sample.part_a = "text/html" ∧
  find_all_limit1 "base" (BeautifulSoup Sample.E (Bytes [x02])) = [] ∧
  (∃ data ct,
     fst (MappedInline.render Sample.E (Mapped.init Sample.E []) 0 (Raw Sample.part_a) ∅
            initial_world) = Ok (data, ct)) ∧
  ∀ data ct w',
    MappedInline.render Sample.E (Mapped.init Sample.E []) 0 (Raw Sample.part_a) ∅
      initial_world = (Ok (data, ct), w') →
    data = Bytes (doc_encode Sample.E (BeautifulSoup Sample.E (Bytes [x02]))) ∧
    ct = "text/html;charset=utf8".
Proof.
  split; [reflexivity|]. split; [reflexivity|]. split; [reflexivity|].
  split; [by vm_compute|]. split; [by vm_compute|].
  split; [eexists _, _; by vm_compute|].
  apply (render_html_nothing_resolves Sample.E (Mapped.init Sample.E []) 0 Sample.part_a
           [x02] ∅ initial_world); [reflexivity|reflexivity|reflexivity|by vm_compute|by vm_compute].
Defined.

(** ** Base64 text: the data URI and the digest *)

Lemma append_empty_r (s : string) : s +:+ EmptyString = s.
Proof.
  induction s as [|c s IH]; [done|].
  change (String c (s +:+ EmptyString) = String c s). by rewrite IH.
Qed.

Lemma remove_char_append (c : ascii) (s t : string) :
  remove_char c (s +:+ t) = remove_char c s +:+ remove_char c t.
Proof.
  induction s as [|d s IH]; [done|].
  change (remove_char c (String d (s +:+ t)) = remove_char c (String d s) +:+ remove_char c t).
  simpl. case_bool_decide; [exact IH|].
  change (String d (remove_char c (s +:+ t)) = String d (remove_char c s +:+ remove_char c t)).
  by rewrite IH.
Qed.

Lemma remove_char_absent (c : ascii) (s : string) :
  c ∉ list_ascii_of_string s → remove_char c s = s.
Proof.
  induction s as [|d s IH]; simpl; [done|]. rewrite not_elem_of_cons. intros [Hne Hs].
  rewrite bool_decide_eq_false_2 by done. by rewrite IH.
Qed.

Lemma get_elem (s : string) (i : nat) :
  i < String.length s → ∃ c, String.get i s = Some c ∧ c ∈ list_ascii_of_string s.
Proof.
  revert i. induction s as [|d s IH]; intros i Hi; simpl in *; [lia|].
  destruct i as [|i].
  - exists d. split; [done|left].
  - destruct (IH i) as (c & Hc & Hin); [lia|]. exists c. split; [done|by right].
Qed.

Lemma sextet_elem (alphabet : string) (n i : N) :
  String.length alphabet = 64 → sextet alphabet n i ∈ list_ascii_of_string alphabet.
Proof.
  intros Hlen. unfold sextet.
  destruct (get_elem alphabet (N.to_nat (N.land (N.shiftr n (6 * i)) 63))) as (c & -> & Hc);
    [|done].
  rewrite Hlen. change 63%N with (N.ones 6). rewrite N.land_ones.
  pose proof (N.mod_upper_bound (N.shiftr n (6 * i)) (2 ^ 6)) as Hlt.
  change (2 ^ 6)%N with 64%N in *. lia.
Qed.

(** The characters of base64 text are those of the alphabet and the padding. *)
Lemma b64encode_chars (alphabet : string) :
  String.length alphabet = 64 →
  ∀ (s : bytes) (c : ascii),
    c ∈ list_ascii_of_string (b64encode_with alphabet s) →
    c ∈ list_ascii_of_string alphabet ∨ c = pad.
Proof.
  intros Hlen. fix IH 1. intros s c.
  destruct s as [|x [|y [|z s]]]; simpl.
  - clear IH. by intros ?%elem_of_nil.
  - clear IH. rewrite !elem_of_cons, elem_of_nil.
    intros [->|[->|[->|[->|[]]]]]; auto using sextet_elem.
  - clear IH. rewrite !elem_of_cons, elem_of_nil.
    intros [->|[->|[->|[->|[]]]]]; auto using sextet_elem.
  - rewrite !elem_of_cons. intros [->|[->|[->|[->|Hin]]]]; [left; by apply sextet_elem..|].
    by apply (IH s).
Qed.

Lemma b64encode_app (alphabet : string) (k : nat) :
  ∀ s t : bytes, length s = 3 * k →
    b64encode_with alphabet (s ++ t) = b64encode_with alphabet s +:+ b64encode_with alphabet t.
Proof.
  induction k as [|k IH]; intros s t Hlen.
  - by destruct s.
  - destruct s as [|x [|y [|z s]]]; simpl in Hlen; try lia.
    change ((x :: y :: z :: s) ++ t) with (x :: y :: z :: (s ++ t)).
    cbn [b64encode_with]. rewrite (IH s t) by lia. reflexivity.
Qed.

Lemma b64encode_no_newline (s : bytes) :
  newline ∉ list_ascii_of_string (b64encode_with std_alphabet s).
Proof.
  assert (newline ∉ list_ascii_of_string std_alphabet) as Hstd
    by (apply (bool_decide_unpack _); by vm_compute).
  intros Hin. apply (b64encode_chars std_alphabet eq_refl) in Hin as [Hin|Heq]; [done|].
  discriminate.
Qed.

Lemma encodebytes_from_unbroken (n : nat) :
  ∀ s : bytes, length s ≤ n →
    remove_char newline (encodebytes_from n s) = b64encode_with std_alphabet s.
Proof.
  induction n as [|n IH]; intros s Hlen.
  - destruct s; [done|simpl in Hlen; lia].
  - destruct s as [|x s]; [done|].
    change (encodebytes_from (S n) (x :: s))
      with (b2a_base64 (take MAXBINSIZE (x :: s))
            +:+ encodebytes_from n (drop MAXBINSIZE (x :: s))).
    unfold b2a_base64. rewrite !remove_char_append.
    rewrite (remove_char_absent _ _ (b64encode_no_newline _)).
    change (remove_char newline (String newline EmptyString)) with EmptyString.
    rewrite append_empty_r.
    rewrite IH by (rewrite length_drop; simpl in *; unfold MAXBINSIZE; lia).
    destruct (decide (length (x :: s) < MAXBINSIZE)) as [Hshort|Hlong].
    + rewrite take_ge, drop_ge by lia. apply append_empty_r.
    + rewrite <- (b64encode_app std_alphabet 19) by (rewrite length_take; unfold MAXBINSIZE in *; lia).
      by rewrite take_drop.
Qed.

(** X12. The line breaks that [encodebytes] puts after every 57 bytes never
    reach the URI: [data] gives the prefix ["data:"], the content type,
    [";base64,"] and the base64 text of the bytes in one piece, in which there
    is no newline. *)
Theorem data_uri_unbroken (binary : bytes) (content_type : string) :
  InlineData.data binary content_type
  = "data:" +:+ content_type +:+ ";base64," +:+ b64encode_with std_alphabet binary ∧
  newline ∉ list_ascii_of_string (b64encode_with std_alphabet binary).
Proof.
  split; [|apply b64encode_no_newline].
  unfold InlineData.data, encodebytes. by rewrite encodebytes_from_unbroken.
Qed.




(** ** The driver *)

Lemma first_start_None (by_id : gmap string Part) (starts : list string) :
  Main.first_start by_id starts = None ↔ ∀ start, start ∈ starts → by_id !! start = None.
Proof.
  induction starts as [|s starts IH]; simpl.
  - split; [|done]. by intros _ start ?%elem_of_nil.
  - destruct (by_id !! s) as [root|] eqn:Hs.
    + split; [done|]. intros Hall. rewrite (Hall s) in Hs; [done|left].
    + rewrite IH. split.
      * intros Hall start [->|?]%elem_of_cons; auto.
      * intros Hall start ?. apply Hall. by right.
Qed.

Lemma first_start_Some (by_id : gmap string Part) (starts : list string) (root : Part) :
  Main.first_start by_id starts = Some root →
  ∃ start, start ∈ starts ∧ by_id !! start = Some root.
Proof.
  induction starts as [|s starts IH]; simpl; [done|].
  destruct (by_id !! s) as [r|] eqn:Hs.
  - intros [= ->]. exists s. split; [left|done].
  - intros (start & ? & ?)%IH. exists start. split; [by right|done].
Qed.

Lemma first_leaf_None (walk : list Part) :
  Main.first_leaf walk = None ↔ Forall (λ part, is_multipart part = true) walk.
Proof.
  induction walk as [|part walk IH]; simpl.
  - split; [constructor|done].
  - rewrite Forall_cons. destruct (is_multipart part); simpl.
    + rewrite IH. split; [by split|by intros [_ ?]].
    + split; [done|]. by intros [? _].
Qed.

Lemma first_leaf_Some (walk : list Part) (root : Part) :
  Main.first_leaf walk = Some root →
  ∃ pre post, walk = pre ++ root :: post ∧
              Forall (λ part, is_multipart part = true) pre ∧
              is_multipart root = false.
Proof.
  induction walk as [|part walk IH]; simpl; [done|].
  destruct (is_multipart part) eqn:Hm; simpl.
  - intros (pre & post & -> & Hpre & Hroot)%IH. exists (part :: pre), post.
    split_and!; [done|by constructor|done].
  - intros [= ->]. exists [], walk. split_and!; [done|constructor|done].
Qed.

Lemma find_root_None (E : Externals) (iter : gset string → list string)
    (path : string) (walk : list Part) :
  (∀ s x, x ∈ iter s ↔ x ∈ s) →
  Main.find_root iter (Mapped.init E walk) walk = None ↔ rootless E (path, walk).
Proof.
  intros Hiter. unfold Main.find_root, rootless. simpl.
  destruct (Main.first_start _ _) as [root|] eqn:Hstart.
  - split; [done|]. intros [Hnone _].
    apply first_start_Some in Hstart as (start & Hin & Hroot).
    apply Hiter in Hin. by rewrite (Hnone start Hin) in Hroot.
  - rewrite first_leaf_None. split; [|by intros [_ ?]].
    intros Hleaf. split; [|done]. intros start Hin.
    apply (proj1 (first_start_None _ _) Hstart). by apply Hiter.
Qed.

(** X14. The root of a message.  Whatever the order in which the set of start
    parameters is iterated, the driver takes as root a part of the message
    that the index holds under a start parameter; only when no start
    parameter is a key of the index, the first part of the walk that is not
    multipart; and it finds no root exactly when, besides, every part is
    multipart. *)
Theorem find_root_choice (E : Externals) (iter : gset string → list string)
    (walk : list Part) :
  (∀ s x, x ∈ iter s ↔ x ∈ s) →
  match Main.find_root iter (Mapped.init E walk) walk with
  | Some root =>
      root ∈ walk ∧
      ((∃ start, start ∈ Mapped.starts (Mapped.init E walk) ∧
                 Mapped.by_id (Mapped.init E walk) !! start = Some root) ∨
       ((∀ start, start ∈ Mapped.starts (Mapped.init E walk) →
                  Mapped.by_id (Mapped.init E walk) !! start = None) ∧
        ∃ pre post, walk = pre ++ root :: post ∧
                    Forall (λ part, is_multipart part = true) pre ∧
                    is_multipart root = false))
  | None => ∀ path, rootless E (path, walk)
  end.
Proof.
  intros Hiter. destruct (Main.find_root _ _ _) as [root|] eqn:Hroot.
  - unfold Main.find_root in Hroot.
    destruct (Main.first_start _ _) as [r|] eqn:Hstart.
    + injection Hroot as ->.
      apply first_start_Some in Hstart as (start & Hin & Hk). apply Hiter in Hin.
      split; [apply (init_index_elem E walk start); by left|]. left. by exists start.
    + apply first_leaf_Some in Hroot as (pre & post & -> & Hpre & Hleaf).
      split; [apply elem_of_app; right; left|]. right. split; [|by exists pre, post].
      intros start Hin. apply (proj1 (first_start_None _ _) Hstart). by apply Hiter.
  - intros path. by apply (find_root_None E iter path walk Hiter).
Qed.

Lemma find_root_choice_witness :
  (∀ (s : gset string) x, x ∈ elements s ↔ x ∈ s) ∧
  Main.find_root elements
    (Mapped.init Sample.E [Sample.container; Sample.part_a; Sample.part_image])
    [Sample.container; Sample.part_a; Sample.part_image] = Some Sample.part_a ∧
  Sample.part_a ∈ [Sample.container; Sample.part_a; Sample.part_image].
Proof.
  assert (∀ (s : gset string) x, x ∈ elements s ↔ x ∈ s) as Hiter
    by (intros s x; apply elem_of_elements).
  assert (Main.find_root elements
            (Mapped.init Sample.E [Sample.container; Sample.part_a; Sample.part_image])
            [Sample.container; Sample.part_a; Sample.part_image] = Some Sample.part_a) as Hroot
    by (by vm_compute).
  split; [exact Hiter|]. split; [exact Hroot|].
  pose proof (find_root_choice Sample.E elements
                [Sample.container; Sample.part_a; Sample.part_image] Hiter) as Hchoice.
  rewrite Hroot in Hchoice. exact (proj1 Hchoice).
Defined.

Lemma main_rootless (E : Externals) (iter : gset string → list string) (con : Main.variant)
    (inputs : list (string * list Part)) :
  (∀ s x, x ∈ iter s ↔ x ∈ s) →
  Forall (rootless E) inputs →
  ∀ p, Main.main E iter con inputs p
       = (Main.Finished,
          Main.Process (Main.os p) (Main.stderr p ++ map no_root_line inputs)).
Proof.
  intros Hiter Hall. induction Hall as [|[path walk] inputs Hroot _ IH]; intros p.
  - simpl. rewrite app_nil_r. by destruct p.
  - apply (find_root_None E iter path walk Hiter) in Hroot.
    cbn [Main.main]. cbv zeta. rewrite Hroot, IH. simpl. by rewrite <- app_assoc.
Qed.

Lemma total_render_root (E : Externals) (con : Main.variant) (walk : list Part) (root : Part) :
  total (Main.render_root E con (Mapped.init E walk) walk root).
Proof.
  destruct con; simpl.
  - apply total_MappedInline_render.
  - apply total_MappedRelative_render, fuel_bound_init.
Qed.

Lemma main_root (E : Externals) (iter : gset string → list string) (con : Main.variant)
    (path : string) (walk : list Part) (rest : list (string * list Part))
    (p : Main.process) (root : Part) :
  Main.find_root iter (Mapped.init E walk) walk = Some root →
  Main.main E iter con ((path, walk) :: rest) p =
    (match fst (Main.render_root E con (Mapped.init E walk) walk root (Main.os p)) with
     | Ok _ => Main.AttributeError "module 'posixpath' has no attribute 'split_ext'"
     | Raise e => Main.Uncaught e
     | OutOfFuel => Main.Exhausted
     end,
     Main.Process (snd (Main.render_root E con (Mapped.init E walk) walk root (Main.os p)))
       (Main.stderr p)).
Proof.
  intros Hroot. cbn [Main.main]. cbv zeta. rewrite Hroot.
  by destruct (Main.render_root _ _ _ _ _ _) as [[v|e|] w].
Qed.

(** X15. The script ends normally only when it converted nothing: its run
    finishes exactly when no input has a root, and then it printed one line
    for each input to [sys.stderr], in order, and left files and cache as
    they were. *)
Theorem main_finishes_only_without_root (E : Externals) (iter : gset string → list string)
    (con : Main.variant) (inputs : list (string * list Part)) (p : Main.process) :
  (∀ s x, x ∈ iter s ↔ x ∈ s) →
  (fst (Main.main E iter con inputs p) = Main.Finished ↔ Forall (rootless E) inputs) ∧
  (Forall (rootless E) inputs →
   snd (Main.main E iter con inputs p)
   = Main.Process (Main.os p) (Main.stderr p ++ map no_root_line inputs)).
Proof.
  intros Hiter. split; [|intros Hall; by rewrite (main_rootless E iter con inputs Hiter Hall)].
  split; [|intros Hall; by rewrite (main_rootless E iter con inputs Hiter Hall)].
  revert p. induction inputs as [|[path walk] inputs IH]; intros p Hfin; [constructor|].
  destruct (Main.find_root iter (Mapped.init E walk) walk) as [root|] eqn:Hroot.
  - rewrite (main_root E iter con path walk inputs p root Hroot) in Hfin. simpl in Hfin.
    pose proof (total_render_root E con walk root (Main.os p)) as Htotal.
    by destruct (fst (Main.render_root _ _ _ _ _ _)).
  - constructor; [by apply (find_root_None E iter path walk Hiter)|].
    revert Hfin. cbn [Main.main]. cbv zeta. rewrite Hroot. apply IH.
Qed.

Lemma main_finishes_only_without_root_witness :
  (∀ (s : gset string) x, x ∈ elements s ↔ x ∈ s) ∧
  fst (Main.main Sample.E elements Main.Relative
         [("a.mht", [Sample.container; Sample.part_a; Sample.part_image])]
         (Main.Process initial_world [])) ≠ Main.Finished.
Proof.
  assert (∀ (s : gset string) x, x ∈ elements s ↔ x ∈ s) as Hiter
    by (intros s x; apply elem_of_elements).
  split; [exact Hiter|]. intros Hfin.
  apply (main_finishes_only_without_root Sample.E elements Main.Relative
           [("a.mht", [Sample.container; Sample.part_a; Sample.part_image])]
           (Main.Process initial_world []) Hiter) in Hfin.
  apply Forall_cons in Hfin as [[_ Hmulti] _]. simpl in Hmulti.
  apply Forall_cons in Hmulti as [_ Hmulti]. by apply Forall_cons in Hmulti as [? _].
Defined.



Lemma steps_MappedInline_render (E : Externals) (self : Mapped.t) (fuel : nat)
    (arg : render_arg) (seen : gset string) :
  steps quiet (MappedInline.render E self fuel arg seen).
Proof.
  rewrite MappedInline_render_unfold.
  apply (steps_render quiet); [done|]. intros mref. apply steps_inline_render_data.
Qed.

(** X17. What a run of the script writes.  With digests of 32 bytes, every
    file written over a run, whatever the inputs, is a blob, written under a
    name that no file had, and the files there were keep their contents; as
    inline variant the script writes no file at all. *)
Theorem main_writes_blobs_only (E : Externals) (iter : gset string → list string)
    (con : Main.variant) (inputs : list (string * list Part)) (p : Main.process) :
  (∀ b, length (sha256 E b) = 32) →
  let w' := Main.os (snd (Main.main E iter con inputs p)) in
  (∃ log : list (string * bytes),
     writes w' = writes (Main.os p) ++ log ∧
     (∀ name, name ∈ log.*1 →
        files (Main.os p) !! name = None ∧
        ∃ b ext, name = DataDirectory.blob_path (digest_of E b) ext) ∧
     (con = Main.Inline → log = [])) ∧
  files (Main.os p) ⊆ files w'.
Proof.
  intros Hlen. revert p. induction inputs as [|[path walk] inputs IH]; intros p.
  - simpl. split; [|done]. exists []. rewrite app_nil_r. split; [done|]. split; [|done].
    by intros name ?%elem_of_nil.
  - destruct (Main.find_root iter (Mapped.init E walk) walk) as [root|] eqn:Hroot.
    + rewrite (main_root E iter con path walk inputs p root Hroot). cbn [snd Main.os].
      destruct con; cbn [Main.render_root].
      * destruct (steps_MappedInline_render E (Mapped.init E walk) (length walk) (Raw root) ∅
                    (Main.os p)) as [[Hfiles Hwrites] _].
        split; [|by rewrite Hfiles]. exists []. rewrite app_nil_r. split; [done|].
        split; [|done]. by intros name ?%elem_of_nil.
      * destruct (steps_MappedRelative_render_keeps E (Mapped.init E walk) (length walk) Hlen
                    (Raw root) ∅ (Main.os p)) as [[(log & Hlog & _ & Hfresh & _) _] Hkeeps].
        split; [|exact Hkeeps]. exists log. split; [done|]. split; [|done].
        intros name Hin. destruct (Hfresh name Hin) as (Hnone & b & ext & -> & _).
        split; [done|]. by exists b, ext.
    + cbn [Main.main]. cbv zeta. rewrite Hroot.
      apply (IH (Main.Process (Main.os p) (Main.stderr p ++ [path +:+ " : Can't find root node"]))).
Qed.

Lemma main_writes_blobs_only_witness :
  (∀ b, length (sha256 Sample.E b) = 32) ∧
  files initial_world
  ⊆ files (Main.os (snd (Main.main Sample.E elements Main.Relative
                           [("a.mht", [Sample.container; Sample.part_a; Sample.part_image])]
                           (Main.Process initial_world [])))).
Proof.
  split; [exact sha256_pad_length|].
  exact (proj2 (main_writes_blobs_only Sample.E elements Main.Relative
                  [("a.mht", [Sample.container; Sample.part_a; Sample.part_image])]
                  (Main.Process initial_world []) sha256_pad_length)).
Defined.
